(** * VelodyneScanRegistration: sweep registration of a rotating multi-beam lidar

    A shallow embedding of [src/lib/VelodyneScanRegistration.cpp]
    (namespace [loam]) and the properties of its sweep processing.

    Numbers.  The C++ code computes on [float] and [double].  In the
    model of [process] they are [fval]: the IEEE special values (NaN, the
    two infinities) together with the finite values, on which arithmetic
    is exact real arithmetic.  Rounding, overflow, the difference between
    [float(M_PI)] and [M_PI], and the sign of zero are idealised away
    there.  That model carries the properties of the structure of
    [process]: which elements are read, which points are skipped or
    stored, in which buffer and order, and under which indices.  Near a
    threshold the machine can take another branch than exact arithmetic
    does, so the lines whose property is decided by the arithmetic are
    embedded a second time with the arithmetic of the machine: lines
    90-97 in IEEE binary32 and binary64 ([sweep_orientation32], on the
    operations of [SpecFloat]), lines 122-128 with a rounding after every
    [float] operation ([ring_assignment32]), and line 165 with the
    narrowing of the ratio to [float] ([select_imu32]).  Unsigned [size_t]
    arithmetic is modelled on [Z] with its wrap-around modulo 2^64
    written out; an out-of-bounds element access is undefined behaviour
    and is modelled by [None]. *)

From Stdlib Require Import Reals Lra Lia ZArith List Bool SpecFloat.
Import ListNotations.

Local Open Scope Z_scope.

(** ** Floating-point values, idealised *)

Inductive fval : Type :=
| FNaN
| FInf (neg : bool)
| FFin (r : R).

Definition pcl_isfinite (a : fval) : bool :=
  match a with FFin _ => true | _ => false end.

Definition Rltb (a b : R) : bool := if Rlt_dec a b then true else false.

Definition Req_zero (a : R) : bool := if Req_dec_T a 0 then true else false.

(** [a < b]; false as soon as one side is NaN. *)
Definition flt (a b : fval) : bool :=
  match a, b with
  | FNaN, _ | _, FNaN => false
  | FFin x, FFin y => Rltb x y
  | FFin _, FInf n => negb n
  | FInf n, FFin _ => n
  | FInf n, FInf m => n && negb m
  end.

Definition fgt (a b : fval) : bool := flt b a.

Definition fopp (a : fval) : fval :=
  match a with
  | FNaN => FNaN
  | FInf n => FInf (negb n)
  | FFin x => FFin (- x)
  end.

Definition fadd (a b : fval) : fval :=
  match a, b with
  | FNaN, _ | _, FNaN => FNaN
  | FFin x, FFin y => FFin (x + y)
  | FFin _, FInf n | FInf n, FFin _ => FInf n
  | FInf n, FInf m => if Bool.eqb n m then FInf n else FNaN
  end.

Definition fsub (a b : fval) : fval := fadd a (fopp b).

Definition fmul (a b : fval) : fval :=
  match a, b with
  | FNaN, _ | _, FNaN => FNaN
  | FFin x, FFin y => FFin (x * y)
  | FFin x, FInf n | FInf n, FFin x =>
      if Req_zero x then FNaN else FInf (xorb n (Rltb x 0))
  | FInf n, FInf m => FInf (xorb n m)
  end.

Definition fdiv (a b : fval) : fval :=
  match a, b with
  | FNaN, _ | _, FNaN => FNaN
  | FFin x, FFin y =>
      if Req_zero y
      then (if Req_zero x then FNaN else FInf (Rltb x 0))
      else FFin (x / y)
  | FFin _, FInf _ => FFin 0
  | FInf n, FFin y => FInf (xorb n (Rltb y 0))
  | FInf _, FInf _ => FNaN
  end.

Definition fsqrt (a : fval) : fval :=
  match a with
  | FNaN => FNaN
  | FInf n => if n then FNaN else FInf false
  | FFin x => if Rltb x 0 then FNaN else FFin (sqrt x)
  end.

Definition fatan (a : fval) : fval :=
  match a with
  | FNaN => FNaN
  | FInf n => FFin (if n then - (PI / 2) else PI / 2)
  | FFin x => FFin (atan x)
  end.

(** The angle of the point [(x, y)], in [[-PI, PI]]. *)
Definition Ratan2 (y x : R) : R :=
  if Rltb 0 x then atan (y / x)
  else if Rltb x 0 then
    (if Rltb y 0 then atan (y / x) - PI else atan (y / x) + PI)
  else if Rltb 0 y then PI / 2
  else if Rltb y 0 then - (PI / 2)
  else 0.

Definition fatan2 (y x : fval) : fval :=
  match y, x with
  | FNaN, _ | _, FNaN => FNaN
  | FFin b, FFin a => FFin (Ratan2 b a)
  | FFin b, FInf n =>
      FFin (if n then (if Rltb b 0 then - PI else PI) else 0)
  | FInf m, FFin _ => FFin (if m then - (PI / 2) else PI / 2)
  | FInf m, FInf n =>
      let q := if n then 3 * PI / 4 else PI / 4 in
      FFin (if m then - q else q)
  end%R.

Definition f_PI : fval := FFin PI.
Definition f_of_Z (n : Z) : fval := FFin (IZR n).

(** Conversion to [int]: truncation toward zero.  The conversion of a NaN
    or of an infinity is undefined. *)
Definition Rtrunc (x : R) : Z := if Rltb x 0 then Zceil x else Zfloor x.

Definition f_to_int (a : fval) : option Z :=
  match a with
  | FFin x => Some (Rtrunc x)
  | _ => None
  end.

(** ** Points *)

(** [pcl::PointXYZ], a point of the input cloud. *)
Record PointXYZ : Type := mkXYZ { in_x : fval; in_y : fval; in_z : fval }.

(** [pcl::PointXYZI], a point of the registered cloud. *)
Record PointXYZI : Type :=
  mkXYZI { x : fval; y : fval; z : fval; intensity : fval }.

(** ** Unsigned index arithmetic and vector access *)

Definition size_t_wrap (v : Z) : Z := v mod 2 ^ 64.

(** [v[i]] for a [std::vector]; [i] is a [size_t]. *)
Definition vec_at {A : Type} (v : list A) (i : Z) : option A :=
  if (0 <=? i) && (i <? Z.of_nat (length v))
  then nth_error v (Z.to_nat i) else None.

(** ** Sweep orientation (lines 84-97 of [process]) *)

(** Lines 93-97 in exact arithmetic.  On the machine the difference is a
    rounded [float] compared with a [double], see [correct_endOri32]. *)
Definition correct_endOri (startOri endOri : fval) : fval :=
  if fgt (fsub endOri startOri) (fmul (FFin 3) f_PI)
  then fsub endOri (fmul (FFin 2) f_PI)
  else if flt (fsub endOri startOri) f_PI
  then fadd endOri (fmul (FFin 2) f_PI)
  else endOri.

Definition sweep_orientation (points : list PointXYZ) : option (fval * fval) :=
  let cloudSize := Z.of_nat (length points) in
  match vec_at points 0, vec_at points (size_t_wrap (cloudSize - 1)) with
  | Some first, Some last =>
      let startOri := fopp (fatan2 (in_y first) (in_x first)) in
      let endOri :=
        fadd (fopp (fatan2 (in_y last) (in_x last))) (fmul (FFin 2) f_PI) in
      Some (startOri, correct_endOri startOri endOri)
  | _, _ => None
  end.

(** ** The sweep orientation on the machine (lines 90-97)

    The same lines with the numbers of the machine: [float] is IEEE
    binary32 and [double] is binary64, with the operations of [SpecFloat],
    which round to nearest, ties to even.  An operation on two [float]s is
    a binary32 operation; a [float] meets a [double] after its exact
    promotion, in binary64; an assignment to a [float] narrows.
    [std::atan2] on [float] is the function of the C library, a
    parameter. *)

(** The [float], and the [double], nearest to [m * 2^e]. *)
Definition float_of (m e : Z) : spec_float :=
  binary_normalize 24 128 m e false.
Definition double_of (m e : Z) : spec_float :=
  binary_normalize 53 1024 m e false.

Definition to_double (a : spec_float) : spec_float :=
  match a with
  | S754_finite s m e => binary_normalize 53 1024 (cond_Zopp s (Zpos m)) e s
  | _ => a
  end.

Definition to_float (a : spec_float) : spec_float :=
  match a with
  | S754_finite s m e => binary_normalize 24 128 (cond_Zopp s (Zpos m)) e s
  | _ => a
  end.

(** [M_PI] of [math.h], 0x400921FB54442D18. *)
Definition M_PI : spec_float := double_of 7074237752028440 (- 51).

(** [pcl::PointXYZ] with the coordinates as binary32 numbers. *)
Record PointXYZ32 : Type :=
  mkXYZ32 { x32 : spec_float; y32 : spec_float; z32 : spec_float }.

Section MachineOrientation.

Variable atan2f : spec_float -> spec_float -> spec_float.

(** Lines 93-97. *)
Definition correct_endOri32 (startOri endOri : spec_float) : spec_float :=
  if SFltb (SFmul 53 1024 (double_of 3 0) M_PI)
           (to_double (SFsub 24 128 endOri startOri))
  then to_float (SFsub 53 1024 (to_double endOri)
                       (SFmul 53 1024 (double_of 2 0) M_PI))
  else if SFltb (to_double (SFsub 24 128 endOri startOri)) M_PI
  then to_float (SFadd 53 1024 (to_double endOri)
                       (SFmul 53 1024 (double_of 2 0) M_PI))
  else endOri.

(** Lines 84 and 90-97. *)
Definition sweep_orientation32 (points : list PointXYZ32)
  : option (spec_float * spec_float) :=
  let cloudSize := Z.of_nat (length points) in
  match vec_at points 0, vec_at points (size_t_wrap (cloudSize - 1)) with
  | Some first, Some last =>
      let startOri := SFopp (atan2f (y32 first) (x32 first)) in
      let endOri :=
        SFadd 24 128 (SFopp (atan2f (y32 last) (x32 last)))
              (SFmul 24 128 (float_of 2 0) (to_float M_PI)) in
      Some (startOri, correct_endOri32 startOri endOri)
  | _, _ => None
  end.

End MachineOrientation.

(** A sweep of two points: the first at [(1, -3e-7, 0)], just before the
    x axis, the last at [(-1, -1e-30, 0)], just before the negative x
    axis; the coordinates are the [float]s nearest to these decimals. *)
Definition first_before_axis : PointXYZ32 :=
  mkXYZ32 (float_of 1 0) (float_of (- 10555312) (- 45)) (float_of 0 0).
Definition last_before_half_turn : PointXYZ32 :=
  mkXYZ32 (float_of (- 1) 0) (float_of (- 10633824) (- 123)) (float_of 0 0).

(** [atan2] on [float] where [y] is negative and negligible against [x],
    correct to the last place: [y / x] on the right of the origin and
    [- PI] on its left. *)
Definition atan2f_near_axis (y x : spec_float) : spec_float :=
  if SFltb x (float_of 0 0) then SFopp (to_float M_PI)
  else SFdiv 24 128 y x.

(** ** Per-point classification (lines 105-154 of [process]) *)

Definition two_PI : fval := fmul (FFin 2) f_PI.

(** Lines 106-108.  The variable [point] lives across iterations; its
    intensity is not read before line 154 overwrites it. *)
Definition remap (p : PointXYZ) : PointXYZI :=
  {| x := in_y p; y := in_z p; z := in_x p; intensity := FFin 0 |}.

Definition has_nonfinite (point : PointXYZI) : bool :=
  negb (pcl_isfinite (x point)) ||
  negb (pcl_isfinite (y point)) ||
  negb (pcl_isfinite (z point)).

Definition sq_norm (point : PointXYZI) : fval :=
  fadd (fadd (fmul (x point) (x point)) (fmul (y point) (y point)))
       (fmul (z point) (z point)).

Definition near_zero (point : PointXYZI) : bool :=
  flt (sq_norm point) (FFin (1 / 10000)).

(** Line 123 in exact arithmetic; [vertical_angle32] has the rounding and
    the overflow of the [float] operations. *)
Definition vertical_angle (point : PointXYZI) : fval :=
  fdiv (fmul (fatan (fdiv (y point)
                          (fsqrt (fadd (fmul (x point) (x point))
                                       (fmul (z point) (z point))))))
             (FFin 180))
       f_PI.

Definition roundedAngle (angle : fval) : option Z :=
  f_to_int
    (fadd angle (if flt angle (FFin 0) then FFin (- (1 / 2)) else FFin (1 / 2))).

(** [_nScans] is a [uint16_t]; [_nScans - 1] is computed on [int]. *)
Definition scanID_of (nScans roundedAngle : Z) : Z :=
  if 0 <? roundedAngle then roundedAngle else roundedAngle + (nScans - 1).

Definition scanID_out_of_range (nScans scanID : Z) : bool :=
  (scanID >? nScans - 1) || (scanID <? 0).

(** Lines 131-150: the horizontal angle and the updated [halfPassed], in
    exact arithmetic (on the machine [ori] is a [float], the bounds of
    the window are [double]s, and each shift by [2 * M_PI] is rounded). *)
Definition unwrap_ori (startOri endOri : fval) (halfPassed : bool)
    (point : PointXYZI) : fval * bool :=
  let ori := fopp (fatan2 (x point) (z point)) in
  if negb halfPassed then
    let ori :=
      if flt ori (fsub startOri (fdiv f_PI (FFin 2))) then fadd ori two_PI
      else if fgt ori (fadd startOri (fdiv (fmul f_PI (FFin 3)) (FFin 2)))
      then fsub ori two_PI
      else ori in
    (ori, if fgt (fsub ori startOri) f_PI then true else halfPassed)
  else
    let ori := fadd ori two_PI in
    let ori :=
      if flt ori (fsub endOri (fdiv (fmul f_PI (FFin 3)) (FFin 2)))
      then fadd ori two_PI
      else if fgt ori (fadd endOri (fdiv f_PI (FFin 2)))
      then fsub ori two_PI
      else ori in
    (ori, halfPassed).

Definition relTime_of (scanPeriod startOri endOri ori : fval) : fval :=
  fdiv (fmul scanPeriod (fsub ori startOri)) (fsub endOri startOri).

(** ** Ring assignment on [float] (lines 122-128)

    Line 123 computes on [float]: every multiplication, addition and
    division is followed by a rounding to binary32, which turns a result
    too large into an infinity, and [std::atan] and [std::sqrt] are the
    functions of the C library on [float].  The rounding and the two
    library functions are parameters here, so that what is proved of
    these lines holds for the arithmetic of the machine, whatever it
    rounds to, and not only for exact arithmetic. *)




Section Binary32.

(** The binary32 value of the real result of an operation. *)
Variable round32 : R -> fval.
(** [std::atan] and [std::sqrt] on [float]. *)
Variable atanf : fval -> fval.
Variable sqrtf : fval -> fval.






End Binary32.

(** ** Ring buffers and their assembly (lines 102, 173, 176-184) *)

(** [laserCloudScans[scanID].push_back(point)] *)
Fixpoint push_scan (scans : list (list PointXYZI)) (scanID : nat)
    (point : PointXYZI) : option (list (list PointXYZI)) :=
  match scans, scanID with
  | [], _ => None
  | s :: rest, O => Some ((s ++ [point]) :: rest)
  | s :: rest, S k =>
      match push_scan rest k point with
      | Some rest' => Some (s :: rest')
      | None => None
      end
  end.

(** The element type of [_scanStartIndices] and [_scanEndIndices] is
    declared in [ScanRegistration.h], which is not among the sources; it is
    a parameter of the model.  The spec speaks of "two parallel integer
    arrays": [IndexInt] is that reading, [IndexSizeT] the type of the
    expressions the code stores. *)
Inductive index_type : Type :=
| IndexInt      (* a signed 32-bit [int] *)
| IndexSizeT.   (* an unsigned 64-bit [size_t] *)

(** The conversion of a [size_t] value to the element type. *)
Definition store_index (ity : index_type) (v : Z) : Z :=
  match ity with
  | IndexInt => (v + 2 ^ 31) mod 2 ^ 32 - 2 ^ 31
  | IndexSizeT => v mod 2 ^ 64
  end.

Record Assembly : Type := mkAssembly {
  asm_cloud : list PointXYZI;
  asm_cloudSize : Z;
  asm_starts : list Z;
  asm_ends : list Z
}.

(** One iteration of the loop of lines 178-184. *)
Definition assemble_step (ity : index_type) (a : Assembly)
    (scan : list PointXYZI) : Assembly :=
  let cloudSize' :=
    size_t_wrap (asm_cloudSize a + Z.of_nat (length scan)) in
  {| asm_cloud := asm_cloud a ++ scan;
     asm_cloudSize := cloudSize';
     asm_starts := asm_starts a ++ [store_index ity (asm_cloudSize a)];
     asm_ends := asm_ends a ++ [store_index ity (size_t_wrap (cloudSize' - 1))] |}.

Definition assemble (ity : index_type) (cloud0 : list PointXYZI)
    (scans : list (list PointXYZI)) : Assembly :=
  fold_left (assemble_step ity) scans
    {| asm_cloud := cloud0; asm_cloudSize := 0;
       asm_starts := []; asm_ends := [] |}.

(** ** The registration object and [process] *)

Section Registration.

(** [IMUState] and its static [interpolate], and the member function
    [transformToStartIMU], belong to the base class [ScanRegistration],
    which is not among the sources: they are parameters.  [stamp] is the
    time stamp of a state in seconds; [transformToStartIMU] reads the
    members [_imuStart] and [_imuCur], passed here as arguments. *)
Context {IMUState : Type}.
Variable stamp : IMUState -> R.
Variable interpolate : IMUState -> IMUState -> fval -> IMUState.
Variable transformToStartIMU :
  IMUState -> IMUState -> PointXYZI -> fval -> PointXYZI.

(** The element type of the two index arrays. *)
Variable ity : index_type.

Record ScanRegistration : Type := mkReg {
  _scanPeriod : fval;
  _nScans : Z;
  _imuHistory : list IMUState;
  _imuStartIdx : Z;
  _imuStart : IMUState;
  _imuCur : IMUState;
  _laserCloud : list PointXYZI;
  _scanStartIndices : list Z;
  _scanEndIndices : list Z;
  _systemDelay : Z
}.

(** *** Motion compensation (lines 157-171) *)

(** [(scanTime - s.stamp).toSec() + relTime > 0] *)
Definition after_stamp (scanTime : R) (relTime : fval) (s : IMUState)
  : bool :=
  fgt (fadd (FFin (scanTime - stamp s)) relTime) (FFin 0).

(** The condition of the [while] of line 158.  The second conjunct is
    only evaluated when the first holds, and then the access is in
    bounds. *)
Definition advance_cond (history : list IMUState) (scanTime : R)
    (relTime : fval) (imuIdx : Z) : bool :=
  (imuIdx <? size_t_wrap (Z.of_nat (length history) - 1)) &&
  match vec_at history imuIdx with
  | Some s => after_stamp scanTime relTime s
  | None => false
  end.

(** The [while] loop of lines 158-160; each iteration increments
    [imuIdx], so [length history] iterations are enough
    (see [advance_imuIdx_stops]). *)
Fixpoint advance_imuIdx_fuel (fuel : nat) (history : list IMUState)
    (scanTime : R) (relTime : fval) (imuIdx : Z) : Z :=
  match fuel with
  | O => imuIdx
  | S fuel' =>
      if advance_cond history scanTime relTime imuIdx
      then advance_imuIdx_fuel fuel' history scanTime relTime
             (size_t_wrap (imuIdx + 1))
      else imuIdx
  end.

Definition advance_imuIdx (history : list IMUState) (scanTime : R)
    (relTime : fval) (imuIdx : Z) : Z :=
  advance_imuIdx_fuel (length history) history scanTime relTime imuIdx.

(** Which branch of lines 162-168 computes [_imuCur]. *)
Inductive imu_source : Type :=
| Direct (entry : IMUState)
| Interpolated (cur prev : IMUState) (ratio : fval).

(** Lines 162-168.  The ratio is the exact quotient; line 165 computes
    it on [double] and narrows it to [float], see [select_imu32]. *)
Definition select_imu (history : list IMUState) (scanTime : R)
    (relTime : fval) (imuIdx : Z) : option imu_source :=
  match vec_at history imuIdx with
  | None => None
  | Some cur =>
      if (imuIdx =? 0) || after_stamp scanTime relTime cur
      then Some (Direct cur)
      else
        match vec_at history (size_t_wrap (imuIdx - 1)) with
        | None => None
        | Some prev =>
            let ratio :=
              fdiv (fsub (FFin (stamp cur - scanTime)) relTime)
                   (FFin (stamp cur - stamp prev)) in
            Some (Interpolated cur prev ratio)
        end
  end.

Definition imu_of_source (src : imu_source) : IMUState :=
  match src with
  | Direct entry => entry
  | Interpolated cur prev ratio => interpolate cur prev ratio
  end.

(** *** The loop over the input points (lines 99-174) *)

Record LoopState : Type := mkLoop {
  imuIdx : Z;
  halfPassed : bool;
  imuCur : IMUState;
  laserCloudScans : list (list PointXYZI)
}.

(** What one iteration does with its point. *)
Inductive Outcome : Type :=
| Skipped
| Undefined
| Classified (scanID : Z) (ori relTime : fval) (halfPassed' : bool).

(** Lines 106-154: everything up to the packed intensity. *)
Definition classify (reg : ScanRegistration) (startOri endOri : fval)
    (halfPassed : bool) (p : PointXYZ) : Outcome :=
  let point := remap p in
  if has_nonfinite point then Skipped
  else if near_zero point then Skipped
  else
    match roundedAngle (vertical_angle point) with
    | None => Undefined
    | Some rounded =>
        let scanID := scanID_of (_nScans reg) rounded in
        if scanID_out_of_range (_nScans reg) scanID then Skipped
        else
          let '(ori, halfPassed') :=
            unwrap_ori startOri endOri halfPassed point in
          Classified scanID ori
            (relTime_of (_scanPeriod reg) startOri endOri ori) halfPassed'
    end.

Definition set_intensity (point : PointXYZI) (v : fval) : PointXYZI :=
  {| x := x point; y := y point; z := z point; intensity := v |}.

(** Lines 157-171: the cursor, [_imuCur] and the point after the
    compensation; nothing changes when the history is empty. *)
Definition compensate (reg : ScanRegistration) (scanTime : R)
    (imuIdx : Z) (imuCur : IMUState) (point : PointXYZI) (relTime : fval)
  : option (Z * IMUState * PointXYZI) :=
  let history := _imuHistory reg in
  if 0 <? Z.of_nat (length history) then
    let imuIdx' := advance_imuIdx history scanTime relTime imuIdx in
    match select_imu history scanTime relTime imuIdx' with
    | None => None
    | Some src =>
        let cur := imu_of_source src in
        Some (imuIdx', cur,
              transformToStartIMU (_imuStart reg) cur point relTime)
    end
  else Some (imuIdx, imuCur, point).

(** One iteration of the loop of line 105. *)
Definition point_step (reg : ScanRegistration) (scanTime : R)
    (startOri endOri : fval) (st : LoopState) (p : PointXYZ)
  : option LoopState :=
  match classify reg startOri endOri (halfPassed st) p with
  | Skipped => Some st
  | Undefined => None
  | Classified scanID ori relTime halfPassed' =>
      let point :=
        set_intensity (remap p) (fadd (f_of_Z scanID) relTime) in
      match compensate reg scanTime (imuIdx st) (imuCur st) point relTime with
      | None => None
      | Some (imuIdx', cur, point') =>
          match push_scan (laserCloudScans st) (Z.to_nat scanID) point' with
          | None => None
          | Some scans' =>
              Some {| imuIdx := imuIdx'; halfPassed := halfPassed';
                      imuCur := cur; laserCloudScans := scans' |}
          end
      end
  end.

(** The loop of line 105 ([int i] does not overflow on a cloud of fewer
    than 2^31 points). *)
Fixpoint points_loop (reg : ScanRegistration) (scanTime : R)
    (startOri endOri : fval) (st : LoopState) (points : list PointXYZ)
  : option LoopState :=
  match points with
  | [] => Some st
  | p :: rest =>
      match point_step reg scanTime startOri endOri st p with
      | None => None
      | Some st' => points_loop reg scanTime startOri endOri st' rest
      end
  end.

(** Modelled from the spec: [reset] is a member of the base class, which
    is not among the sources.  It clears the cloud buffers and
    establishes the cursor start index [_imuStartIdx] and the state
    [_imuStart] at the sweep start; the latter two are kept as the
    object holds them. *)
Definition reset (reg : ScanRegistration) : ScanRegistration :=
  {| _scanPeriod := _scanPeriod reg; _nScans := _nScans reg;
     _imuHistory := _imuHistory reg; _imuStartIdx := _imuStartIdx reg;
     _imuStart := _imuStart reg; _imuCur := _imuCur reg;
     _laserCloud := [];
     _scanStartIndices := _scanStartIndices reg;
     _scanEndIndices := _scanEndIndices reg;
     _systemDelay := _systemDelay reg |}.

Definition initial_loop (reg : ScanRegistration) : LoopState :=
  {| imuIdx := _imuStartIdx reg; halfPassed := false;
     imuCur := _imuCur reg;
     laserCloudScans := repeat [] (Z.to_nat (_nScans reg)) |}.

(** Lines 84-174 of [process]: the state when the loop over the input
    points ends. *)
Definition classify_sweep (reg : ScanRegistration)
    (laserCloudIn : list PointXYZ) (scanTime : R) : option LoopState :=
  let reg0 := reset reg in
  match sweep_orientation laserCloudIn with
  | None => None
  | Some (startOri, endOri) =>
      points_loop reg0 scanTime startOri endOri (initial_loop reg0)
        laserCloudIn
  end.

(** [process], up to the calls of [extractFeatures], [setIMUTrans] and
    [publishResult], which belong to the base class.  The index arrays
    are taken to have [_nScans] elements. *)
Definition process (reg : ScanRegistration) (laserCloudIn : list PointXYZ)
    (scanTime : R) : option ScanRegistration :=
  let reg0 := reset reg in
  match classify_sweep reg laserCloudIn scanTime with
  | None => None
  | Some st =>
      let a := assemble ity (_laserCloud reg0) (laserCloudScans st) in
      Some {| _scanPeriod := _scanPeriod reg0; _nScans := _nScans reg0;
              _imuHistory := _imuHistory reg0;
              _imuStartIdx := _imuStartIdx reg0;
              _imuStart := _imuStart reg0; _imuCur := imuCur st;
              _laserCloud := asm_cloud a;
              _scanStartIndices := asm_starts a;
              _scanEndIndices := asm_ends a;
              _systemDelay := _systemDelay reg0 |}
  end.

(** *** The message handler (lines 38-46 and 65-77) *)

Definition set_systemDelay (reg : ScanRegistration) (delay : Z)
  : ScanRegistration :=
  {| _scanPeriod := _scanPeriod reg; _nScans := _nScans reg;
     _imuHistory := _imuHistory reg; _imuStartIdx := _imuStartIdx reg;
     _imuStart := _imuStart reg; _imuCur := _imuCur reg;
     _laserCloud := _laserCloud reg;
     _scanStartIndices := _scanStartIndices reg;
     _scanEndIndices := _scanEndIndices reg;
     _systemDelay := delay |}.

(** The constructor, given the object the base-class constructor
    built: [_systemDelay(20)]. *)
Definition construct (base : ScanRegistration) : ScanRegistration :=
  set_systemDelay base 20.

(** [_systemDelay--] *)
Definition decrement_delay (reg : ScanRegistration) : ScanRegistration :=
  set_systemDelay reg (_systemDelay reg - 1).

(** A cloud message: the converted cloud and the header stamp. *)
Definition CloudMessage : Type := (list PointXYZ * R)%type.

(** What a call of the handler did. *)
Inductive Handled : Type :=
| Delayed
| Processed (laserCloudIn : list PointXYZ) (scanTime : R).

Definition processCloudMessage (reg : ScanRegistration)
    (laserCloudMsg : CloudMessage)
  : option ScanRegistration * Handled :=
  if _systemDelay reg >? 0
  then (Some (decrement_delay reg), Delayed)
  else
    let laserCloudIn := fst laserCloudMsg in
    (process reg laserCloudIn (snd laserCloudMsg),
     Processed laserCloudIn (snd laserCloudMsg)).

(** The handler called on a sequence of messages, with what each call
    did; the object is lost once a call has undefined behaviour. *)
Fixpoint handle_messages (reg : ScanRegistration)
    (msgs : list CloudMessage) : list Handled * option ScanRegistration :=
  match msgs with
  | [] => ([], Some reg)
  | msg :: rest =>
      match processCloudMessage reg msg with
      | (Some reg', h) =>
          let '(hs, final) := handle_messages reg' rest in (h :: hs, final)
      | (None, h) => ([h], None)
      end
  end.

End Registration.

Arguments ScanRegistration : clear implicits.
Arguments LoopState : clear implicits.
Arguments imu_source : clear implicits.

(** ** The interpolation ratio as a [float] (line 165)

    Line 165 computes the quotient on [double] and stores it in a
    [float]: [narrow] stands for the rounding of the [double] division
    followed by the conversion to [float], and is a parameter. *)

Definition narrow_ratio {IMUState : Type} (narrow : R -> fval)
    (src : imu_source IMUState) : imu_source IMUState :=
  match src with
  | Interpolated cur prev (FFin q) => Interpolated cur prev (narrow q)
  | _ => src
  end.

(** Lines 162-168 with the ratio as line 165 stores it. *)
Definition select_imu32 {IMUState : Type} (narrow : R -> fval)
    (stamp : IMUState -> R) (history : list IMUState) (scanTime : R)
    (relTime : fval) (imuIdx : Z) : option (imu_source IMUState) :=
  option_map (narrow_ratio narrow)
             (select_imu stamp history scanTime relTime imuIdx).

(** ** Vocabulary of the properties *)

(** A point survives the validity filter of lines 110-120: finite
    coordinates and a squared norm not below the threshold. *)
Definition survives_validity (p : PointXYZ) : bool :=
  negb (has_nonfinite (remap p)) && negb (near_zero (remap p)).

(** The ring index lines 123-125 compute for a point. *)
Definition ring_of (nScans : Z) (p : PointXYZ) : option Z :=
  match roundedAngle (vertical_angle (remap p)) with
  | Some rounded => Some (scanID_of nScans rounded)
  | None => None
  end.

(** A point reaches a ring buffer: it survives the validity filter and its
    ring index passes the check of line 126. *)
Definition accepted (nScans : Z) (p : PointXYZ) : bool :=
  survives_validity p &&
  match ring_of nScans p with
  | Some scanID => negb (scanID_out_of_range nScans scanID)
  | None => false
  end.

(** The number of points of the rings that received points, counted from
    the index arrays: the sum of [ringEnd - ringStart + 1]. *)
Fixpoint ring_points_sum (scans : list (list PointXYZI))
    (starts ends : list Z) : Z :=
  match scans, starts, ends with
  | scan :: scans', s :: starts', e :: ends' =>
      (match scan with [] => 0 | _ :: _ => e - s + 1 end)
      + ring_points_sum scans' starts' ends'
  | _, _, _ => 0
  end.

(** The size of the assembled cloud before ring [i] is appended. *)
Definition size_before (scans : list (list PointXYZI)) (i : nat) : Z :=
  Z.of_nat (length (concat (firstn i scans))).

(** [r] is [theta] rounded to the nearest integer, ties away from zero. *)
Definition nearest_away (theta : R) (r : Z) : Prop :=
  (Rabs (IZR r - theta) <= 1 / 2)%R /\
  (Rabs (IZR r - theta) = 1 / 2 -> Rabs theta < Rabs (IZR r))%R.

(** The index arrays the loop of lines 178-184 builds from a counter value
    [cloudSize], written by recursion on the ring buffers. *)
Fixpoint starts_from (ity : index_type) (cloudSize : Z)
    (scans : list (list PointXYZI)) : list Z :=
  match scans with
  | [] => []
  | scan :: rest =>
      store_index ity cloudSize ::
      starts_from ity (size_t_wrap (cloudSize + Z.of_nat (length scan))) rest
  end.

Fixpoint ends_from (ity : index_type) (cloudSize : Z)
    (scans : list (list PointXYZI)) : list Z :=
  match scans with
  | [] => []
  | scan :: rest =>
      let cloudSize' := size_t_wrap (cloudSize + Z.of_nat (length scan)) in
      store_index ity (size_t_wrap (cloudSize' - 1)) ::
      ends_from ity cloudSize' rest
  end.

(** The cursor into the history is usable: the history is empty (the
    cursor is then never read) or the cursor indexes one of its entries. *)
Definition cursor_ok {IMUState : Type} (history : list IMUState)
    (imuIdx : Z) : bool :=
  (Z.of_nat (length history) =? 0) ||
  ((0 <=? imuIdx) && (imuIdx <? Z.of_nat (length history))).

(** The inputs [process] is meant for: a ring count that fits
    [uint16_t], a history whose size fits [size_t], a usable cursor start
    index, and a non-empty input cloud of fewer than 2^31 points. *)
Definition well_formed {IMUState : Type} (reg : ScanRegistration IMUState)
    (laserCloudIn : list PointXYZ) : bool :=
  (0 <=? _nScans reg) && (_nScans reg <? 2 ^ 16) &&
  (Z.of_nat (length (_imuHistory reg)) <? 2 ^ 64) &&
  cursor_ok (_imuHistory reg) (_imuStartIdx reg) &&
  (0 <? Z.of_nat (length laserCloudIn)) &&
  (Z.of_nat (length laserCloudIn) <? 2 ^ 31).

(** What the loop of line 105 maintains: one buffer per ring and a usable
    cursor. *)
Definition loop_inv {IMUState : Type} (reg : ScanRegistration IMUState)
    (st : LoopState IMUState) : Prop :=
  length (laserCloudScans st) = Z.to_nat (_nScans reg) /\
  cursor_ok (_imuHistory reg) (imuIdx st) = true.

(** The three reasons for which a point is dropped: a non-finite
    remapped coordinate, a squared norm below the threshold, or a ring
    index outside [[0, N-1]]. *)
Definition rejected (nScans : Z) (p : PointXYZ) : Prop :=
  has_nonfinite (remap p) = true \/
  near_zero (remap p) = true \/
  exists scanID, ring_of nScans p = Some scanID /\
                 (scanID < 0 \/ nScans - 1 < scanID).

(** Modelled from the spec: [transformToStartIMU] is a member of the base
    class, which is not among the sources.  The spec has it re-express the
    coordinates of the point in the sweep-start frame, "mutating the
    point's coordinates in place.  The packed ring/time scalar is
    untouched." *)
Definition keeps_intensity {IMUState : Type}
    (transform : IMUState -> IMUState -> PointXYZI -> fval -> PointXYZI)
  : Prop :=
  forall imuStart imuCur point relTime,
    intensity (transform imuStart imuCur point relTime) = intensity point.

(** ** A concrete collaborator, for the examples

    One time-stamped state with a heading and a drift along the first
    axis, interpolated linearly; the transform shifts the first coordinate
    by the drift since the sweep start and leaves the intensity alone. *)

Record IMUSample : Type :=
  mkIMU { sample_stamp : R; sample_yaw : fval; sample_drift : fval }.

Definition mix (a b ratio : fval) : fval :=
  fadd (fmul a (fsub (FFin 1) ratio)) (fmul b ratio).

Definition sample_interpolate (a b : IMUSample) (ratio : fval) : IMUSample :=
  {| sample_stamp := sample_stamp a;
     sample_yaw := mix (sample_yaw a) (sample_yaw b) ratio;
     sample_drift := mix (sample_drift a) (sample_drift b) ratio |}.

Definition sample_transform (imuStart imuCur : IMUSample)
    (point : PointXYZI) (relTime : fval) : PointXYZI :=
  {| x := fsub (x point) (fsub (sample_drift imuCur) (sample_drift imuStart));
     y := y point; z := z point; intensity := intensity point |}.

Definition sample0 : IMUSample := mkIMU 0 (FFin 0) (FFin 0).

(** A 16-ring registration without IMU history. *)
Definition reg16 : ScanRegistration IMUSample :=
  mkReg (FFin (1 / 10)) 16 [] 0 sample0 sample0 [] [] [] 0.

(** A point straight ahead, and a point 45 degrees above the horizon. *)
Definition p_ahead : PointXYZ := mkXYZ (FFin 1) (FFin 0) (FFin 0).
Definition p_high : PointXYZ := mkXYZ (FFin 1) (FFin 0) (FFin 1).

(** Two IMU states one second apart, and a 16-ring registration whose
    history holds them; the first stamp is the sweep time 0. *)
Definition sample1 : IMUSample := mkIMU 1 (FFin 0) (FFin 1).

Definition reg16_imu : ScanRegistration IMUSample :=
  mkReg (FFin (1 / 10)) 16 [sample0; sample1] 0 sample0 sample0 [] [] [] 0.

(** A point a quarter turn after [p_ahead]. *)
Definition p_side : PointXYZ := mkXYZ (FFin 0) (FFin (- 1)) (FFin 0).

(** The classified points of a sweep in input order, each with its ring
    index and before any compensation: the points for which the loop of
    line 105 reaches line 154, with the [halfPassed] flag threaded through
    as the loop does. *)
Fixpoint classified_trace {IMUState : Type} (reg : ScanRegistration IMUState)
    (startOri endOri : fval) (halfPassed : bool) (points : list PointXYZ)
  : list (Z * PointXYZI) :=
  match points with
  | [] => []
  | p :: rest =>
      match classify reg startOri endOri halfPassed p with
      | Classified scanID ori relTime halfPassed' =>
          (scanID, set_intensity (remap p) (fadd (f_of_Z scanID) relTime))
          :: classified_trace reg startOri endOri halfPassed' rest
      | _ => classified_trace reg startOri endOri halfPassed rest
      end
  end.

(** The points of a trace that belong to ring [i], in trace order. *)
Definition ring_points (i : nat) (trace : list (Z * PointXYZI))
  : list PointXYZI :=
  map snd (filter (fun t => (Z.to_nat (fst t) =? i)%nat) trace).

(** A trace entry is the classification of one of the input points: its
    ring index is the one [classify] gave the point, its coordinates are
    the remapped coordinates of that point (lines 106-108), and its
    intensity is the packed scalar of line 154, the ring index plus the
    relative time of that classification. *)
Definition classified_entry {IMUState : Type}
    (reg : ScanRegistration IMUState) (startOri endOri : fval)
    (points : list PointXYZ) (t : Z * PointXYZI) : Prop :=
  exists p hp ori relTime hp',
    In p points /\
    classify reg startOri endOri hp p = Classified (fst t) ori relTime hp' /\
    x (snd t) = in_y p /\ y (snd t) = in_z p /\ z (snd t) = in_x p /\
    intensity (snd t) = fadd (f_of_Z (fst t)) relTime.

(** What lines 157-173 store for a classified point [point]: the point
    itself when the compensation is skipped, and otherwise the point
    [transformToStartIMU] made of it; nothing else writes to the point
    between line 154 and the [push_back] of line 173. *)
Definition compensated_from {IMUState : Type}
    (transform : IMUState -> IMUState -> PointXYZI -> fval -> PointXYZI)
    (point q : PointXYZI) : Prop :=
  q = point \/
  exists imuStart imuCur relTime, q = transform imuStart imuCur point relTime.

(** * Properties *)

(** ** Comparisons *)

Lemma Rltb_true (a b : R) : Rltb a b = true <-> (a < b)%R.
Proof.
  unfold Rltb. destruct (Rlt_dec a b); split; intros; try easy.
Qed.

Lemma Rltb_false (a b : R) : Rltb a b = false <-> (b <= a)%R.
Proof.
  unfold Rltb. destruct (Rlt_dec a b); split; intros; try easy; lra.
Qed.

Lemma Req_zero_true (a : R) : Req_zero a = true <-> a = 0%R.
Proof.
  unfold Req_zero. destruct (Req_dec_T a 0); split; intros; easy.
Qed.

Lemma Req_zero_false (a : R) : Req_zero a = false <-> a <> 0%R.
Proof.
  unfold Req_zero. destruct (Req_dec_T a 0); split; intros; easy.
Qed.

Ltac case_Rltb a b :=
  let H := fresh "Hlt" in
  destruct (Rltb a b) eqn:H;
  [apply Rltb_true in H | apply Rltb_false in H].

(** ** Sweep orientation *)

Lemma vec_at_nth {A : Type} (v : list A) (i : nat) (a : A) :
  nth_error v i = Some a -> vec_at v (Z.of_nat i) = Some a.
Proof.
  intros H. unfold vec_at.
  assert (i < length v)%nat by (apply nth_error_Some; congruence).
  replace (0 <=? Z.of_nat i) with true by (symmetry; apply Z.leb_le; lia).
  replace (Z.of_nat i <? Z.of_nat (length v)) with true
    by (symmetry; apply Z.ltb_lt; lia).
  simpl. now rewrite Nat2Z.id.
Qed.

Lemma last_index_wrap (n : nat) :
  (1 <= n)%nat -> Z.of_nat n < 2 ^ 64 ->
  size_t_wrap (Z.of_nat n - 1) = Z.of_nat (n - 1).
Proof.
  intros Hn Hb. unfold size_t_wrap. rewrite Z.mod_small; lia.
Qed.

Lemma sweep_orientation_defined (points : list PointXYZ) (first last : PointXYZ) :
  Z.of_nat (length points) < 2 ^ 64 ->
  nth_error points 0 = Some first ->
  nth_error points (length points - 1) = Some last ->
  sweep_orientation points =
    Some (fopp (fatan2 (in_y first) (in_x first)),
          correct_endOri
            (fopp (fatan2 (in_y first) (in_x first)))
            (fadd (fopp (fatan2 (in_y last) (in_x last))) two_PI)).
Proof.
  intros Hfit Hfirst Hlast. unfold sweep_orientation.
  assert (1 <= length points)%nat.
  { destruct points; simpl in *; [discriminate | lia]. }
  change (vec_at points 0) with (vec_at points (Z.of_nat 0)).
  rewrite (vec_at_nth points 0 first Hfirst).
  rewrite last_index_wrap by assumption.
  now rewrite (vec_at_nth points _ last Hlast).
Qed.

(** C1.  On the machine the correction of lines 93-97 does not keep the
    span in [[PI, 3 PI]]: it leaves it below [M_PI] on the sweep of the
    two finite points [(1, -3e-7, 0)] and [(-1, -1e-30, 0)].  The
    hypotheses give the angles of these points, as any [atan2] that is
    correct to the last place returns them: the [float] next to -3e-7 for
    the first and [- float(M_PI)] for the last.  Then [startOri] is the
    [float] next to 3e-7 and [endOri] starts as
    [float(M_PI) + 2 * float(M_PI)] = 9.424778.  The [float] difference
    [endOri - startOri] rounds to 9.424778 again, which is above the
    [double] [3 * M_PI]: line 94 subtracts [2 * M_PI], [endOri] becomes
    3.1415927, and the span [endOri - startOri], by which line 153
    divides, is 3.1415925, below [M_PI]. *)
Theorem corrected_span_below_M_PI
    (atan2f : spec_float -> spec_float -> spec_float) :
  atan2f (y32 first_before_axis) (x32 first_before_axis)
    = float_of (- 10555312) (- 45) ->
  atan2f (y32 last_before_half_turn) (x32 last_before_half_turn)
    = SFopp (to_float M_PI) ->
  let startOri := float_of 10555312 (- 45) in
  let endOri0 := float_of 9882596 (- 20) in
  let endOri := to_float M_PI in
  SFadd 24 128 (to_float M_PI) (SFmul 24 128 (float_of 2 0) (to_float M_PI))
    = endOri0 /\
  SFltb (SFmul 53 1024 (double_of 3 0) M_PI)
        (to_double (SFsub 24 128 endOri0 startOri)) = true /\
  sweep_orientation32 atan2f [first_before_axis; last_before_half_turn]
    = Some (startOri, endOri) /\
  SFsub 24 128 endOri startOri = float_of 13176794 (- 22) /\
  SFltb (to_double (SFsub 24 128 endOri startOri)) M_PI = true.
Proof.
  intros Hfirst Hlast. cbv zeta.
  split; [reflexivity|]. split; [reflexivity|].
  split; [|split; reflexivity].
  unfold sweep_orientation32.
  change (vec_at [first_before_axis; last_before_half_turn] 0)
    with (Some first_before_axis).
  change (vec_at [first_before_axis; last_before_half_turn]
            (size_t_wrap
               (Z.of_nat (length [first_before_axis; last_before_half_turn])
                - 1)))
    with (Some last_before_half_turn).
  cbv beta iota zeta. rewrite Hfirst, Hlast. reflexivity.
Qed.

(** ** Relative time and unwrapped angle *)

(** For a non-negative scan period and a positive span the relative time
    is a non-decreasing function of the unwrapped horizontal angle. *)
Lemma relTime_of_monotone (period startOri endOri ori1 ori2 : R) :
  (0 <= period)%R -> (startOri < endOri)%R -> (ori1 <= ori2)%R ->
  exists t1 t2 : R,
    relTime_of (FFin period) (FFin startOri) (FFin endOri) (FFin ori1)
      = FFin t1 /\
    relTime_of (FFin period) (FFin startOri) (FFin endOri) (FFin ori2)
      = FFin t2 /\
    (t1 <= t2)%R.
Proof.
  intros Hp Hspan Ho. unfold relTime_of, fsub. simpl.
  rewrite (proj2 (Req_zero_false (endOri + - startOri))) by lra.
  do 2 eexists. split; [reflexivity|]. split; [reflexivity|].
  apply Rmult_le_compat_r.
  - left. apply Rinv_0_lt_compat. lra.
  - apply Rmult_le_compat_l; lra.
Qed.

(** ** Ring buffers *)

Lemma push_scan_defined (scans : list (list PointXYZI)) (i : nat)
    (q : PointXYZI) :
  (i < length scans)%nat -> exists scans', push_scan scans i q = Some scans'.
Proof.
  revert i. induction scans as [|s rest IH]; intros i Hi; simpl in *.
  - lia.
  - destruct i as [|k].
    + eexists; reflexivity.
    + destruct (IH k) as [rest' ->]; [lia|]. eexists; reflexivity.
Qed.

Lemma push_scan_length (scans scans' : list (list PointXYZI)) (i : nat)
    (q : PointXYZI) :
  push_scan scans i q = Some scans' -> length scans' = length scans.
Proof.
  revert i scans'. induction scans as [|s rest IH]; intros i scans' H;
    simpl in *.
  - discriminate.
  - destruct i as [|k].
    + injection H as <-. reflexivity.
    + destruct (push_scan rest k q) as [rest'|] eqn:E; [|discriminate].
      injection H as <-. simpl. f_equal. eapply IH; eassumption.
Qed.

Lemma push_scan_total (scans scans' : list (list PointXYZI)) (i : nat)
    (q : PointXYZI) :
  push_scan scans i q = Some scans' ->
  length (concat scans') = S (length (concat scans)).
Proof.
  revert i scans'. induction scans as [|s rest IH]; intros i scans' H;
    simpl in *.
  - discriminate.
  - destruct i as [|k].
    + injection H as <-. simpl. rewrite !length_app. simpl. lia.
    + destruct (push_scan rest k q) as [rest'|] eqn:E; [|discriminate].
      injection H as <-. simpl. rewrite !length_app.
      rewrite (IH _ _ E). lia.
Qed.

Lemma push_scan_Forall (P : PointXYZI -> Prop)
    (scans scans' : list (list PointXYZI)) (i : nat) (q : PointXYZI) :
  push_scan scans i q = Some scans' ->
  Forall (Forall P) scans -> P q -> Forall (Forall P) scans'.
Proof.
  revert i scans'. induction scans as [|s rest IH]; intros i scans' H HF Hq;
    simpl in *.
  - discriminate.
  - inversion HF as [|? ? Hs Hrest]; subst.
    destruct i as [|k].
    + injection H as <-. constructor; [|assumption].
      apply Forall_app. split; [assumption|]. now constructor.
    + destruct (push_scan rest k q) as [rest'|] eqn:E; [|discriminate].
      injection H as <-. constructor; [assumption|]. eapply IH; eassumption.
Qed.

(** ** Assembly of the ring buffers *)

Lemma size_t_wrap_small (v : Z) : 0 <= v < 2 ^ 64 -> size_t_wrap v = v.
Proof. intros H. unfold size_t_wrap. now apply Z.mod_small. Qed.

Lemma store_index_small (ity : index_type) (v : Z) :
  0 <= v < 2 ^ 31 -> store_index ity v = v.
Proof.
  intros H. destruct ity; simpl.
  - rewrite Z.mod_small; lia.
  - rewrite Z.mod_small; lia.
Qed.

Lemma store_index_int_minus_one :
  store_index IndexInt (size_t_wrap (0 - 1)) = -1.
Proof. reflexivity. Qed.

Lemma store_index_size_t_minus_one :
  store_index IndexSizeT (size_t_wrap (0 - 1)) = 2 ^ 64 - 1.
Proof. reflexivity. Qed.

Lemma assemble_fold (ity : index_type) (scans : list (list PointXYZI))
    (a : Assembly) :
  let a' := fold_left (assemble_step ity) scans a in
  asm_cloud a' = asm_cloud a ++ concat scans /\
  asm_starts a' = asm_starts a ++ starts_from ity (asm_cloudSize a) scans /\
  asm_ends a' = asm_ends a ++ ends_from ity (asm_cloudSize a) scans.
Proof.
  revert a. induction scans as [|s rest IH]; intros a; simpl.
  - now rewrite !app_nil_r.
  - destruct (IH (assemble_step ity a s)) as (Hc & Hs & He).
    rewrite Hc, Hs, He. simpl. rewrite <- !app_assoc. simpl. auto.
Qed.

Lemma assemble_spec (ity : index_type) (cloud0 : list PointXYZI)
    (scans : list (list PointXYZI)) :
  asm_cloud (assemble ity cloud0 scans) = cloud0 ++ concat scans /\
  asm_starts (assemble ity cloud0 scans) = starts_from ity 0 scans /\
  asm_ends (assemble ity cloud0 scans) = ends_from ity 0 scans.
Proof. apply (assemble_fold ity scans (mkAssembly cloud0 0 [] [])). Qed.

Lemma starts_from_length (ity : index_type) (scans : list (list PointXYZI))
    (c : Z) : length (starts_from ity c scans) = length scans.
Proof. revert c. induction scans; intros c; simpl; auto. Qed.

Lemma ends_from_length (ity : index_type) (scans : list (list PointXYZI))
    (c : Z) : length (ends_from ity c scans) = length scans.
Proof. revert c. induction scans; intros c; simpl; auto. Qed.

Lemma size_before_cons (s : list PointXYZI) (rest : list (list PointXYZI))
    (i : nat) :
  size_before (s :: rest) (S i) = Z.of_nat (length s) + size_before rest i.
Proof. unfold size_before. simpl. rewrite length_app. lia. Qed.

Lemma size_before_bounds (scans : list (list PointXYZI)) (i : nat) :
  0 <= size_before scans i <= Z.of_nat (length (concat scans)).
Proof.
  unfold size_before. split; [lia|]. apply inj_le.
  revert i. induction scans as [|s rest IH]; intros i.
  - destruct i; simpl; lia.
  - destruct i; simpl; [lia|]. rewrite !length_app. specialize (IH i). lia.
Qed.

Lemma size_before_step (scans : list (list PointXYZI)) (i : nat) :
  size_before scans (S i) =
  size_before scans i + Z.of_nat (length (nth i scans [])).
Proof.
  revert i. induction scans as [|s rest IH]; intros i.
  - destruct i; reflexivity.
  - destruct i as [|i].
    + unfold size_before. simpl. rewrite app_nil_r. lia.
    + rewrite !size_before_cons, IH. simpl. lia.
Qed.

Lemma starts_from_nth (ity : index_type) (scans : list (list PointXYZI))
    (c : Z) (i : nat) :
  0 <= c -> c + Z.of_nat (length (concat scans)) < 2 ^ 64 ->
  (i < length scans)%nat ->
  nth i (starts_from ity c scans) 0 = store_index ity (c + size_before scans i).
Proof.
  revert c i. induction scans as [|s rest IH]; intros c i Hc Hb Hi;
    simpl in *; [lia|].
  rewrite length_app in Hb.
  destruct i as [|i].
  - unfold size_before. simpl. now rewrite Z.add_0_r.
  - rewrite size_before_cons, size_t_wrap_small by lia.
    rewrite IH by lia. f_equal. lia.
Qed.

Lemma ends_from_nth (ity : index_type) (scans : list (list PointXYZI))
    (c : Z) (i : nat) :
  0 <= c -> c + Z.of_nat (length (concat scans)) < 2 ^ 64 ->
  (i < length scans)%nat ->
  nth i (ends_from ity c scans) 0 =
  store_index ity (size_t_wrap (c + size_before scans (S i) - 1)).
Proof.
  revert c i. induction scans as [|s rest IH]; intros c i Hc Hb Hi;
    simpl in *; [lia|].
  rewrite length_app in Hb.
  destruct i as [|i].
  - unfold size_before. simpl. rewrite app_nil_r.
    rewrite (size_t_wrap_small (c + _)) by lia. reflexivity.
  - rewrite (size_t_wrap_small (c + _)) by lia.
    rewrite IH by lia. rewrite (size_before_cons s rest (S i)).
    do 2 f_equal. lia.
Qed.

(** ** Validity filter and ring assignment *)

Lemma survives_validity_inv (p : PointXYZ) :
  survives_validity p = true ->
  exists a b c : R,
    p = mkXYZ (FFin c) (FFin a) (FFin b) /\
    (1 / 10000 <= a * a + b * b + c * c)%R.
Proof.
  unfold survives_validity, has_nonfinite, near_zero, sq_norm.
  destruct p as [[| |c] [| |a] [| |b]]; simpl; try discriminate.
  intros H. exists a, b, c. split; [reflexivity|].
  apply negb_true_iff in H. now apply Rltb_false.
Qed.

(** The vertical angle of a point that passed the validity filter: the
    quotient is infinite when the point lies on the vertical axis. *)
Lemma vertical_angle_valid (a b c : R) :
  (1 / 10000 <= a * a + b * b + c * c)%R ->
  exists theta : R,
    vertical_angle (mkXYZI (FFin a) (FFin b) (FFin c) (FFin 0)) = FFin theta /\
    (- 90 <= theta <= 90)%R /\
    ((a * a + c * c <> 0)%R ->
       theta = (atan (b / sqrt (a * a + c * c)) * 180 / PI)%R) /\
    ((a * a + c * c = 0)%R ->
       theta = if Rltb b 0 then (- 90)%R else 90%R).
Proof.
  intros Hn. pose proof PI_RGT_0 as Hpi.
  assert (Hd : (0 <= a * a + c * c)%R) by nra.
  unfold vertical_angle, f_PI. simpl.
  rewrite (proj2 (Rltb_false _ _) Hd).
  destruct (Req_dec_T (a * a + c * c) 0) as [Hz | Hnz].
  - rewrite Hz, sqrt_0.
    rewrite (proj2 (Req_zero_true 0) eq_refl).
    assert (Hb : b <> 0%R) by (intros ->; nra).
    rewrite (proj2 (Req_zero_false b) Hb). simpl.
    rewrite (proj2 (Req_zero_false PI) PI_neq0).
    case_Rltb b 0%R.
    + exists (- 90)%R.
      split; [f_equal; field; lra | split; [lra | split; intros; lra]].
    + exists 90%R.
      split; [f_equal; field; lra | split; [lra | split; intros; lra]].
  - assert (Hs : sqrt (a * a + c * c) <> 0%R).
    { intros Hs. apply sqrt_eq_0 in Hs; lra. }
    rewrite (proj2 (Req_zero_false _) Hs). simpl.
    rewrite (proj2 (Req_zero_false PI) PI_neq0).
    pose proof (atan_bound (b / sqrt (a * a + c * c))) as Hb.
    eexists. split; [reflexivity|].
    split; [|split; [reflexivity | intros; lra]].
    split.
    + apply Rmult_le_reg_r with PI; [lra|].
      unfold Rdiv. rewrite Rmult_assoc, Rinv_l by lra. lra.
    + apply Rmult_le_reg_r with PI; [lra|].
      unfold Rdiv. rewrite Rmult_assoc, Rinv_l by lra. lra.
Qed.

Lemma Rtrunc_half_away (theta : R) :
  nearest_away theta
    (Rtrunc (theta + (if Rltb theta 0 then - (1 / 2) else 1 / 2))).
Proof.
  unfold nearest_away, Rtrunc.
  case_Rltb theta 0%R.
  - rewrite (proj2 (Rltb_true _ _)) by lra.
    pose proof (Zceil_bound (theta + - (1 / 2))) as Hc.
    set (r := IZR (Zceil (theta + - (1 / 2)))) in *.
    split.
    + apply Rabs_le. lra.
    + intros Ht. rewrite (Rabs_left theta) by lra.
      assert (r - theta < 1 / 2)%R by lra.
      assert (r - theta < 0)%R.
      { destruct (Rcase_abs (r - theta)) as [Hn | Hp]; [assumption|].
        rewrite Rabs_right in Ht by assumption. lra. }
      rewrite Rabs_left in Ht by assumption.
      rewrite Rabs_left by lra. lra.
  - rewrite (proj2 (Rltb_false _ _)) by lra.
    pose proof (Zfloor_bound (theta + 1 / 2)) as Hf.
    set (r := IZR (Zfloor (theta + 1 / 2))) in *.
    split.
    + apply Rabs_le. lra.
    + intros Ht. rewrite (Rabs_right theta) by lra.
      assert (- (1 / 2) < r - theta)%R by lra.
      assert (0 <= r - theta)%R.
      { destruct (Rcase_abs (r - theta)) as [Hn | Hp]; [|lra].
        rewrite Rabs_left in Ht by assumption. lra. }
      rewrite Rabs_right in Ht by lra.
      rewrite Rabs_right by lra. lra.
Qed.

Lemma roundedAngle_fin (theta : R) :
  roundedAngle (FFin theta) =
  Some (Rtrunc (theta + (if Rltb theta 0 then - (1 / 2) else 1 / 2))).
Proof.
  unfold roundedAngle. simpl. destruct (Rltb theta 0); reflexivity.
Qed.

Lemma nearest_away_bound (theta : R) (r : Z) (n : Z) :
  nearest_away theta r -> (- IZR n <= theta <= IZR n)%R -> - n <= r <= n.
Proof.
  intros [Hd _] Hb.
  assert (- (1 / 2) <= IZR r - theta <= 1 / 2)%R as Hd'.
  { unfold Rabs in Hd. destruct (Rcase_abs (IZR r - theta)); lra. }
  clear Hd.
  split.
  - apply Z.lt_succ_r. apply lt_IZR. rewrite succ_IZR.
    rewrite <- opp_IZR in Hb. lra.
  - apply Z.lt_succ_r. apply lt_IZR. rewrite succ_IZR. lra.
Qed.

Lemma int_ranges (scans : list (list PointXYZI)) (i : nat) :
  Z.of_nat (length (concat scans)) < 2 ^ 31 ->
  (i < length scans)%nat ->
  nth i (starts_from IndexInt 0 scans) 0 = size_before scans i /\
  nth i (ends_from IndexInt 0 scans) 0 = size_before scans (S i) - 1.
Proof.
  intros Hb Hi.
  pose proof (size_before_bounds scans i) as H1.
  pose proof (size_before_bounds scans (S i)) as H2.
  rewrite starts_from_nth, ends_from_nth by lia.
  rewrite !Z.add_0_l. split.
  - apply store_index_small. lia.
  - destruct (Z.eq_dec (size_before scans (S i)) 0) as [-> | Hnz].
    + reflexivity.
    + rewrite size_t_wrap_small by lia. apply store_index_small. lia.
Qed.

Lemma concat_ring_segment (scans : list (list PointXYZI)) (i : nat) :
  firstn (length (nth i scans []))
         (skipn (Z.to_nat (size_before scans i)) (concat scans))
  = nth i scans [].
Proof.
  unfold size_before. rewrite Nat2Z.id.
  revert i. induction scans as [|s rest IH]; intros i.
  - destruct i; reflexivity.
  - destruct i as [|i]; simpl.
    + now rewrite firstn_app, firstn_all, Nat.sub_diag, app_nil_r.
    + rewrite length_app, skipn_app.
      rewrite (skipn_all2 s) by lia. simpl.
      replace (length s + length (concat (firstn i rest)) - length s)%nat
        with (length (concat (firstn i rest))) by lia.
      apply IH.
Qed.

Lemma ring_points_sum_total (ity : index_type)
    (scans : list (list PointXYZI)) (c : Z) :
  0 <= c -> c + Z.of_nat (length (concat scans)) < 2 ^ 31 ->
  ring_points_sum scans (starts_from ity c scans) (ends_from ity c scans)
  = Z.of_nat (length (concat scans)).
Proof.
  revert c. induction scans as [|s rest IH]; intros c Hc Hb.
  - reflexivity.
  - simpl in Hb. rewrite length_app in Hb.
    simpl ring_points_sum. simpl concat. rewrite length_app.
    rewrite (size_t_wrap_small (c + _)) by lia.
    rewrite IH by lia.
    destruct s as [|q s'].
    + simpl. lia.
    + rewrite size_t_wrap_small by (simpl length in *; lia).
      rewrite !store_index_small by (simpl length in *; lia).
      lia.
Qed.

(** With [size_t] elements the end index of an empty ring that no point
    precedes wraps around instead of falling below its start index. *)
Lemma leading_empty_ring_size_t (cloud0 : list PointXYZI)
    (rest : list (list PointXYZI)) :
  nth 0 (asm_starts (assemble IndexSizeT cloud0 ([] :: rest))) 0 = 0 /\
  nth 0 (asm_ends (assemble IndexSizeT cloud0 ([] :: rest))) 0 = 2 ^ 64 - 1.
Proof.
  destruct (assemble_spec IndexSizeT cloud0 ([] :: rest)) as (_ & -> & ->).
  split; reflexivity.
Qed.

Lemma ring_of_valid (nScans : Z) (p : PointXYZ) :
  survives_validity p = true ->
  exists (theta : R) (rounded : Z),
    vertical_angle (remap p) = FFin theta /\
    roundedAngle (FFin theta) = Some rounded /\
    nearest_away theta rounded /\
    - 90 <= rounded <= 90 /\
    ring_of nScans p = Some (scanID_of nScans rounded).
Proof.
  intros Hv. destruct (survives_validity_inv p Hv) as (a & b & c & -> & Hn).
  destruct (vertical_angle_valid a b c Hn) as (theta & Ht & Hb & _).
  unfold ring_of. change (remap (mkXYZ (FFin c) (FFin a) (FFin b)))
    with (mkXYZI (FFin a) (FFin b) (FFin c) (FFin 0)).
  rewrite Ht, roundedAngle_fin.
  pose proof (Rtrunc_half_away theta) as Hr.
  exists theta, (Rtrunc (theta + (if Rltb theta 0 then - (1 / 2) else 1 / 2))).
  split; [reflexivity|]. split; [apply roundedAngle_fin|].
  split; [exact Hr|]. split; [|reflexivity].
  apply (nearest_away_bound theta _ 90 Hr). lra.
Qed.

(** *** Ring assignment on [float] (lines 122-128) *)




Section RegistrationProperties.

Context {IMUState : Type}.
Variable stamp : IMUState -> R.
Variable interpolate : IMUState -> IMUState -> fval -> IMUState.
Variable transformToStartIMU :
  IMUState -> IMUState -> PointXYZI -> fval -> PointXYZI.
Variable ity : index_type.

Local Abbreviation Reg := (ScanRegistration IMUState).
Local Abbreviation Loop := (LoopState IMUState).
Local Abbreviation point_step' :=
  (point_step stamp interpolate transformToStartIMU).
Local Abbreviation points_loop' :=
  (points_loop stamp interpolate transformToStartIMU).
Local Abbreviation compensate' :=
  (compensate stamp interpolate transformToStartIMU).
Local Abbreviation classify_sweep' :=
  (classify_sweep stamp interpolate transformToStartIMU).
Local Abbreviation process' :=
  (process stamp interpolate transformToStartIMU ity).

(** *** Classification never hits undefined behaviour *)

Lemma classify_cases (reg : Reg) (startOri endOri : fval) (hp : bool)
    (p : PointXYZ) :
  (accepted (_nScans reg) p = false /\
   classify reg startOri endOri hp p = Skipped) \/
  (accepted (_nScans reg) p = true /\
   exists scanID : Z,
     ring_of (_nScans reg) p = Some scanID /\
     0 <= scanID <= _nScans reg - 1 /\
     classify reg startOri endOri hp p =
       Classified scanID
         (fst (unwrap_ori startOri endOri hp (remap p)))
         (relTime_of (_scanPeriod reg) startOri endOri
            (fst (unwrap_ori startOri endOri hp (remap p))))
         (snd (unwrap_ori startOri endOri hp (remap p)))).
Proof.
  unfold classify, accepted.
  destruct (survives_validity p) eqn:Hv.
  - destruct (ring_of_valid (_nScans reg) p Hv)
      as (theta & r & Ht & Hr & _ & _ & Hring).
    unfold survives_validity in Hv. apply andb_true_iff in Hv.
    destruct Hv as [Hf Hz]. apply negb_true_iff in Hf, Hz.
    rewrite Hf, Hz, Hring, Ht, Hr. simpl.
    destruct (scanID_out_of_range (_nScans reg) (scanID_of (_nScans reg) r))
      eqn:Ho.
    + left. split; reflexivity.
    + right. split; [reflexivity|]. eexists. split; [reflexivity|].
      split.
      * unfold scanID_out_of_range in Ho. apply orb_false_iff in Ho.
        destruct Ho as [Ho1 Ho2].
        rewrite Z.gtb_ltb in Ho1. apply Z.ltb_ge in Ho1, Ho2. lia.
      * destruct (unwrap_ori startOri endOri hp (remap p)); reflexivity.
  - left. split; [reflexivity|].
    unfold survives_validity in Hv. apply andb_false_iff in Hv.
    destruct Hv as [Hf | Hz].
    + apply negb_false_iff in Hf. now rewrite Hf.
    + apply negb_false_iff in Hz. rewrite Hz.
      now destruct (has_nonfinite (remap p)).
Qed.

(** *** The cursor into the history *)

Lemma cursor_ok_nonempty (history : list IMUState) (idx : Z) :
  cursor_ok history idx = true ->
  0 < Z.of_nat (length history) ->
  0 <= idx < Z.of_nat (length history).
Proof.
  unfold cursor_ok. intros H Hl. apply orb_true_iff in H.
  destruct H as [H | H].
  - apply Z.eqb_eq in H. lia.
  - apply andb_true_iff in H. destruct H as [H1 H2].
    apply Z.leb_le in H1. apply Z.ltb_lt in H2. lia.
Qed.

Lemma cursor_ok_intro (history : list IMUState) (idx : Z) :
  0 <= idx < Z.of_nat (length history) -> cursor_ok history idx = true.
Proof.
  intros H. unfold cursor_ok. apply orb_true_iff. right.
  apply andb_true_iff. split; [apply Z.leb_le | apply Z.ltb_lt]; lia.
Qed.

Lemma advance_fuel_bounds (history : list IMUState) (scanTime : R)
    (relTime : fval) (fuel : nat) (idx : Z) :
  Z.of_nat (length history) < 2 ^ 64 ->
  0 <= idx < Z.of_nat (length history) ->
  idx <= advance_imuIdx_fuel stamp fuel history scanTime relTime idx
      < Z.of_nat (length history).
Proof.
  intros Hl. revert idx. induction fuel as [|fuel IH]; intros idx Hi; simpl.
  - lia.
  - destruct (advance_cond stamp history scanTime relTime idx) eqn:Hc;
      [|lia].
    unfold advance_cond in Hc. apply andb_true_iff in Hc.
    destruct Hc as [Hc _]. apply Z.ltb_lt in Hc.
    rewrite size_t_wrap_small in Hc by lia.
    rewrite size_t_wrap_small by lia.
    specialize (IH (idx + 1)). lia.
Qed.

(** The loop of line 158 has stopped: its condition is false at the
    index the model returns. *)
Lemma advance_imuIdx_stops (history : list IMUState) (scanTime : R)
    (relTime : fval) (idx : Z) :
  Z.of_nat (length history) < 2 ^ 64 ->
  0 <= idx < Z.of_nat (length history) ->
  advance_cond stamp history scanTime relTime
    (advance_imuIdx stamp history scanTime relTime idx) = false.
Proof.
  intros Hl. unfold advance_imuIdx.
  assert (G : forall fuel idx,
             0 <= idx < Z.of_nat (length history) ->
             Z.of_nat (length history) - 1 - idx < Z.of_nat fuel ->
             advance_cond stamp history scanTime relTime
               (advance_imuIdx_fuel stamp fuel history scanTime relTime idx)
             = false).
  { induction fuel as [|fuel IH]; intros i Hi Hf; simpl.
    - lia.
    - destruct (advance_cond stamp history scanTime relTime i) eqn:Hc;
        [|assumption].
      pose proof Hc as Hc'. unfold advance_cond in Hc'.
      apply andb_true_iff in Hc'. destruct Hc' as [Hc' _].
      apply Z.ltb_lt in Hc'. rewrite size_t_wrap_small in Hc' by lia.
      rewrite size_t_wrap_small by lia. apply IH; lia. }
  intros Hi. apply G; lia.
Qed.

Lemma vec_at_defined {A : Type} (v : list A) (i : Z) :
  0 <= i < Z.of_nat (length v) -> exists a, vec_at v i = Some a.
Proof.
  intros H. unfold vec_at.
  replace (0 <=? i) with true by (symmetry; apply Z.leb_le; lia).
  replace (i <? Z.of_nat (length v)) with true
    by (symmetry; apply Z.ltb_lt; lia).
  simpl. destruct (nth_error v (Z.to_nat i)) eqn:E; [eauto|].
  apply nth_error_None in E. lia.
Qed.

Lemma select_imu_defined (history : list IMUState) (scanTime : R)
    (relTime : fval) (idx : Z) :
  Z.of_nat (length history) < 2 ^ 64 ->
  0 <= idx < Z.of_nat (length history) ->
  exists src, select_imu stamp history scanTime relTime idx = Some src.
Proof.
  intros Hl Hi. unfold select_imu.
  destruct (vec_at_defined history idx Hi) as [cur ->].
  destruct ((idx =? 0) || after_stamp stamp scanTime relTime cur) eqn:Hc;
    [eauto|].
  apply orb_false_iff in Hc. destruct Hc as [Hc _].
  apply Z.eqb_neq in Hc.
  rewrite size_t_wrap_small by lia.
  destruct (vec_at_defined history (idx - 1)) as [prev ->]; [lia|eauto].
Qed.

Lemma compensate_defined (reg : Reg) (scanTime : R) (idx : Z)
    (cur : IMUState) (point : PointXYZI) (relTime : fval) :
  Z.of_nat (length (_imuHistory reg)) < 2 ^ 64 ->
  cursor_ok (_imuHistory reg) idx = true ->
  exists idx' cur' point',
    compensate' reg scanTime idx cur point relTime
      = Some (idx', cur', point') /\
    cursor_ok (_imuHistory reg) idx' = true.
Proof.
  intros Hl Hc. unfold compensate.
  destruct (0 <? Z.of_nat (length (_imuHistory reg))) eqn:Hn.
  - apply Z.ltb_lt in Hn.
    pose proof (cursor_ok_nonempty _ _ Hc Hn) as Hi.
    pose proof (advance_fuel_bounds (_imuHistory reg) scanTime relTime
                  (length (_imuHistory reg)) idx Hl Hi) as Hb.
    fold (advance_imuIdx stamp (_imuHistory reg) scanTime relTime idx) in Hb.
    destruct (select_imu_defined (_imuHistory reg) scanTime relTime
                (advance_imuIdx stamp (_imuHistory reg) scanTime relTime idx))
      as [src ->]; [assumption | lia |].
    do 3 eexists. split; [reflexivity|]. apply cursor_ok_intro. lia.
  - do 3 eexists. split; [reflexivity | assumption].
Qed.

(** *** One iteration, and the whole loop *)

Lemma point_step_spec (reg : Reg) (scanTime : R) (startOri endOri : fval)
    (st : Loop) (p : PointXYZ) :
  0 <= _nScans reg ->
  Z.of_nat (length (_imuHistory reg)) < 2 ^ 64 ->
  loop_inv reg st ->
  exists st',
    point_step' reg scanTime startOri endOri st p = Some st' /\
    loop_inv reg st' /\
    ((accepted (_nScans reg) p = false /\ st' = st) \/
     (accepted (_nScans reg) p = true /\
      exists scanID ori relTime point',
        classify reg startOri endOri (halfPassed st) p
          = Classified scanID ori relTime (halfPassed st') /\
        0 <= scanID <= _nScans reg - 1 /\
        compensate' reg scanTime (imuIdx st) (imuCur st)
          (set_intensity (remap p) (fadd (f_of_Z scanID) relTime)) relTime
          = Some (imuIdx st', imuCur st', point') /\
        push_scan (laserCloudScans st) (Z.to_nat scanID) point'
          = Some (laserCloudScans st'))).
Proof.
  intros HN Hl [Hlen Hcur]. unfold point_step.
  destruct (classify_cases reg startOri endOri (halfPassed st) p)
    as [[Ha Hc] | [Ha (scanID & _ & Hid & Hc)]]; rewrite Hc.
  - exists st. split; [reflexivity|]. split; [now split|]. now left.
  - match goal with
    | |- context [compensate' reg scanTime ?i ?c ?q ?r] =>
        destruct (compensate_defined reg scanTime i c q r Hl Hcur)
          as (idx' & cur' & point' & Hcomp & Hcur')
    end.
    rewrite Hcomp.
    destruct (push_scan_defined (laserCloudScans st) (Z.to_nat scanID) point')
      as [scans' Hpush]; [lia|].
    rewrite Hpush. eexists. split; [reflexivity|].
    split.
    + split; simpl; [|assumption].
      rewrite (push_scan_length _ _ _ _ Hpush). assumption.
    + right. split; [assumption|].
      exists scanID. do 2 eexists. exists point'. simpl.
      split; [reflexivity|]. split; [assumption|]. now split.
Qed.

Lemma points_loop_spec (reg : Reg) (scanTime : R) (startOri endOri : fval)
    (points : list PointXYZ) (st : Loop) :
  0 <= _nScans reg ->
  Z.of_nat (length (_imuHistory reg)) < 2 ^ 64 ->
  loop_inv reg st ->
  exists st',
    points_loop' reg scanTime startOri endOri st points = Some st' /\
    loop_inv reg st' /\
    length (concat (laserCloudScans st')) =
      (length (concat (laserCloudScans st)) +
       length (filter (accepted (_nScans reg)) points))%nat.
Proof.
  intros HN Hl. revert st.
  induction points as [|p rest IH]; intros st Hinv; simpl.
  - exists st. repeat split; try apply Hinv. lia.
  - destruct (point_step_spec reg scanTime startOri endOri st p HN Hl Hinv)
      as (st1 & Hstep & Hinv1 & Hcase).
    rewrite Hstep.
    destruct (IH st1 Hinv1) as (st' & Hloop & Hinv' & Hcount).
    exists st'. split; [assumption|]. split; [assumption|].
    rewrite Hcount.
    destruct Hcase as [[Ha ->] | [Ha (id & ori & rt & q & _ & _ & _ & Hpush)]];
      rewrite Ha; simpl.
    + reflexivity.
    + rewrite (push_scan_total _ _ _ _ Hpush). lia.
Qed.

Lemma concat_repeat_nil {A : Type} (n : nat) :
  concat (repeat (@nil A) n) = [].
Proof. induction n; simpl; auto. Qed.

Lemma well_formed_inv (reg : Reg) (points : list PointXYZ) :
  well_formed reg points = true ->
  0 <= _nScans reg < 2 ^ 16 /\
  Z.of_nat (length (_imuHistory reg)) < 2 ^ 64 /\
  cursor_ok (_imuHistory reg) (_imuStartIdx reg) = true /\
  0 < Z.of_nat (length points) < 2 ^ 31.
Proof.
  unfold well_formed. intros H.
  repeat (apply andb_true_iff in H; destruct H as [H ?]).
  repeat match goal with
         | H : (_ <=? _) = true |- _ => apply Z.leb_le in H
         | H : (_ <? _) = true |- _ => apply Z.ltb_lt in H
         end.
  repeat split; assumption.
Qed.

Lemma sweep_orientation_nonempty (points : list PointXYZ) :
  0 < Z.of_nat (length points) < 2 ^ 64 ->
  exists startOri endOri, sweep_orientation points = Some (startOri, endOri).
Proof.
  intros H.
  destruct (nth_error points 0) as [first|] eqn:E0;
    [|apply nth_error_None in E0; lia].
  destruct (nth_error points (length points - 1)) as [last|] eqn:E1;
    [|apply nth_error_None in E1; lia].
  rewrite (sweep_orientation_defined points first last); eauto. lia.
Qed.

(** On a well-formed input the loop over the points runs to its end
    without undefined behaviour, and the ring buffers hold one point for
    each accepted input point. *)
Lemma classify_sweep_defined (reg : Reg) (points : list PointXYZ)
    (scanTime : R) :
  well_formed reg points = true ->
  exists st,
    classify_sweep' reg points scanTime = Some st /\
    length (laserCloudScans st) = Z.to_nat (_nScans reg) /\
    length (concat (laserCloudScans st)) =
      length (filter (accepted (_nScans reg)) points).
Proof.
  intros Hwf. destruct (well_formed_inv reg points Hwf) as (HN & Hl & Hc & Hp).
  unfold classify_sweep.
  destruct (sweep_orientation_nonempty points) as (s & e & ->); [lia|].
  destruct (points_loop_spec (reset reg) scanTime s e points
              (initial_loop (reset reg)))
    as (st & Hloop & [Hlen _] & Hcount).
  - simpl. lia.
  - exact Hl.
  - split; simpl; [apply repeat_length | exact Hc].
  - exists st. split; [exact Hloop|]. split; [exact Hlen|].
    rewrite Hcount. simpl. now rewrite concat_repeat_nil.
Qed.

(** *** The assembled cloud *)

Lemma process_spec (reg : Reg) (points : list PointXYZ) (scanTime : R) :
  well_formed reg points = true ->
  exists st reg',
    classify_sweep' reg points scanTime = Some st /\
    process' reg points scanTime = Some reg' /\
    length (laserCloudScans st) = Z.to_nat (_nScans reg) /\
    length (concat (laserCloudScans st)) =
      length (filter (accepted (_nScans reg)) points) /\
    _laserCloud reg' = concat (laserCloudScans st) /\
    _scanStartIndices reg' = starts_from ity 0 (laserCloudScans st) /\
    _scanEndIndices reg' = ends_from ity 0 (laserCloudScans st) /\
    _imuCur reg' = imuCur st.
Proof.
  intros Hwf.
  destruct (classify_sweep_defined reg points scanTime Hwf)
    as (st & Hst & Hlen & Hcount).
  unfold process. rewrite Hst.
  change (_laserCloud (reset reg)) with (@nil PointXYZI).
  destruct (assemble_spec ity [] (laserCloudScans st)) as (Hc & Hs & He).
  eexists st, _. split; [reflexivity|]. split; [reflexivity|].
  cbn [_laserCloud _scanStartIndices _scanEndIndices _imuCur].
  rewrite Hc, Hs, He. simpl. repeat split; assumption.
Qed.

Lemma accepted_count_bound (nScans : Z) (points : list PointXYZ) :
  (length (filter (accepted nScans) points) <= length points)%nat.
Proof. apply filter_length_le. Qed.

(** C3.  With index arrays of (signed) integers, after the assembly the
    ring ranges are contiguous, disjoint and in ascending ring order:
    [ringStart[i]] is the size of the assembled cloud before the buffer
    of ring [i] is appended, [ringEnd[i]] the size after it minus one,
    [ringEnd[i] = ringStart[i+1] - 1], the range of ring [i] holds
    exactly the buffer of ring [i], and [ringStart[i] > ringEnd[i]]
    exactly when ring [i] received no point. *)
Theorem ring_ranges_contiguous (reg : Reg) (points : list PointXYZ)
    (scanTime : R) :
  ity = IndexInt ->
  well_formed reg points = true ->
  exists st reg',
    classify_sweep' reg points scanTime = Some st /\
    process' reg points scanTime = Some reg' /\
    let scans := laserCloudScans st in
    let ringStart := fun i => nth i (_scanStartIndices reg') 0 in
    let ringEnd := fun i => nth i (_scanEndIndices reg') 0 in
    length scans = Z.to_nat (_nScans reg) /\
    length (_scanStartIndices reg') = Z.to_nat (_nScans reg) /\
    length (_scanEndIndices reg') = Z.to_nat (_nScans reg) /\
    _laserCloud reg' = concat scans /\
    forall i : nat, (i < Z.to_nat (_nScans reg))%nat ->
      ringStart i = size_before scans i /\
      ringEnd i = size_before scans (S i) - 1 /\
      ringEnd i - ringStart i + 1 = Z.of_nat (length (nth i scans [])) /\
      firstn (length (nth i scans []))
             (skipn (Z.to_nat (ringStart i)) (_laserCloud reg'))
        = nth i scans [] /\
      ((S i < Z.to_nat (_nScans reg))%nat ->
         ringEnd i = ringStart (S i) - 1 /\ ringStart i <= ringStart (S i)) /\
      (ringStart i > ringEnd i <-> nth i scans [] = []).
Proof.
  intros Hity Hwf.
  destruct (process_spec reg points scanTime Hwf)
    as (st & reg' & Hst & Hp & Hlen & Hcount & Hc & Hs & He & _).
  destruct (well_formed_inv reg points Hwf) as (_ & _ & _ & Hpts).
  pose proof (accepted_count_bound (_nScans reg) points) as Hle.
  exists st, reg'. split; [assumption|]. split; [assumption|].
  cbv zeta. rewrite Hs, He, Hc, Hity.
  rewrite starts_from_length, ends_from_length.
  repeat (split; [assumption || reflexivity|]).
  intros i Hi.
  assert (Hb : Z.of_nat (length (concat (laserCloudScans st))) < 2 ^ 31)
    by lia.
  destruct (int_ranges (laserCloudScans st) i Hb) as [H1 H2]; [lia|].
  rewrite H1, H2.
  pose proof (size_before_step (laserCloudScans st) i) as Hstep.
  split; [reflexivity|]. split; [reflexivity|].
  split; [lia|].
  split; [apply concat_ring_segment|].
  split.
  - intros Hi'.
    destruct (int_ranges (laserCloudScans st) (S i) Hb) as [H3 _]; [lia|].
    rewrite H3. lia.
  - split.
    + intros Hgt. apply length_zero_iff_nil. lia.
    + intros Hnil. rewrite Hnil in Hstep. simpl in Hstep. lia.
Qed.

(** C4, as amended.  The sum over the rings that received points of
    [ringEnd[i] - ringStart[i] + 1] is the number of input points that
    survive the validity filter and whose ring index lies in
    [[0, N-1]]. *)
Theorem ring_sum_counts_accepted (reg : Reg) (points : list PointXYZ)
    (scanTime : R) :
  well_formed reg points = true ->
  exists st reg',
    classify_sweep' reg points scanTime = Some st /\
    process' reg points scanTime = Some reg' /\
    ring_points_sum (laserCloudScans st)
      (_scanStartIndices reg') (_scanEndIndices reg')
    = Z.of_nat (length (filter (accepted (_nScans reg)) points)).
Proof.
  intros Hwf.
  destruct (process_spec reg points scanTime Hwf)
    as (st & reg' & Hst & Hp & Hlen & Hcount & Hc & Hs & He & _).
  destruct (well_formed_inv reg points Hwf) as (_ & _ & _ & Hpts).
  pose proof (accepted_count_bound (_nScans reg) points) as Hle.
  exists st, reg'. split; [assumption|]. split; [assumption|].
  rewrite Hs, He, ring_points_sum_total by lia.
  now rewrite Hcount.
Qed.

(** *** Dropped points *)

Lemma rejected_skipped (reg : Reg) (startOri endOri : fval) (hp : bool)
    (p : PointXYZ) :
  rejected (_nScans reg) p -> classify reg startOri endOri hp p = Skipped.
Proof.
  intros Hrej.
  destruct (classify_cases reg startOri endOri hp p)
    as [[_ Hc] | [Ha (id & Hid & Hrange & _)]]; [exact Hc|].
  exfalso. unfold accepted, survives_validity in Ha.
  repeat (apply andb_true_iff in Ha; destruct Ha as [Ha ?]).
  destruct Hrej as [Hf | [Hz | (id' & Hid' & Hout)]].
  - rewrite Hf in Ha. discriminate.
  - rewrite Hz in *. discriminate.
  - rewrite Hid in Hid'. injection Hid' as <-. lia.
Qed.

Lemma points_loop_app (reg : Reg) (scanTime : R) (startOri endOri : fval)
    (pre post : list PointXYZ) (st : Loop) :
  points_loop' reg scanTime startOri endOri st (pre ++ post) =
  match points_loop' reg scanTime startOri endOri st pre with
  | Some st' => points_loop' reg scanTime startOri endOri st' post
  | None => None
  end.
Proof.
  revert st. induction pre as [|q pre IH]; intros st; simpl.
  - reflexivity.
  - destruct (point_step' reg scanTime startOri endOri st q); auto.
Qed.

Lemma nth_error_last {A : Type} (l : list A) (a : A) :
  nth_error (l ++ [a]) (length (l ++ [a]) - 1) = Some a.
Proof.
  rewrite length_app. simpl.
  replace (length l + 1 - 1)%nat with (length l) by lia.
  rewrite nth_error_app2 by lia. now rewrite Nat.sub_diag.
Qed.

Lemma sweep_orientation_interior (pre post : list PointXYZ) (p : PointXYZ) :
  pre <> [] -> post <> [] ->
  Z.of_nat (length (pre ++ p :: post)) < 2 ^ 64 ->
  sweep_orientation (pre ++ p :: post) = sweep_orientation (pre ++ post).
Proof.
  intros Hpre Hpost Hfit.
  destruct pre as [|first pre']; [congruence|].
  destruct (exists_last Hpost) as (post' & last & ->).
  rewrite (sweep_orientation_defined _ first last Hfit).
  - rewrite (sweep_orientation_defined _ first last).
    + reflexivity.
    + rewrite !length_app in *. simpl length in *.
      rewrite !length_app in *. simpl length in *. lia.
    + reflexivity.
    + rewrite app_assoc. apply nth_error_last.
  - reflexivity.
  - change (p :: post' ++ [last]) with ((p :: post') ++ [last]).
    rewrite app_assoc. apply nth_error_last.
Qed.

(** C6.  A point with a non-finite remapped coordinate, with a squared
    norm below 1e-4, or with a ring index outside [[0, N-1]] is skipped
    silently: its iteration raises no error and leaves the cursor, the
    [halfPassed] flag and every ring buffer as they were, so the loop,
    and for a point that is neither the first nor the last of the sweep
    the whole of [process], behaves as if the point were not in the
    input. *)
Theorem rejected_point_skipped (reg : Reg) (scanTime : R)
    (startOri endOri : fval) (p : PointXYZ) :
  rejected (_nScans reg) p ->
  (forall st : Loop,
     point_step' reg scanTime startOri endOri st p = Some st) /\
  (forall (st : Loop) (pre post : list PointXYZ),
     points_loop' reg scanTime startOri endOri st (pre ++ p :: post) =
     points_loop' reg scanTime startOri endOri st (pre ++ post)) /\
  (forall pre post : list PointXYZ,
     pre <> [] -> post <> [] ->
     Z.of_nat (length (pre ++ p :: post)) < 2 ^ 64 ->
     classify_sweep' reg (pre ++ p :: post) scanTime =
       classify_sweep' reg (pre ++ post) scanTime /\
     process' reg (pre ++ p :: post) scanTime =
       process' reg (pre ++ post) scanTime).
Proof.
  intros Hrej.
  assert (Hstep : forall s e (st : Loop),
             point_step' reg scanTime s e st p = Some st).
  { intros s e st. unfold point_step.
    now rewrite (rejected_skipped reg s e (halfPassed st) p Hrej). }
  assert (Hloop : forall s e (st : Loop) pre post,
             points_loop' reg scanTime s e st (pre ++ p :: post) =
             points_loop' reg scanTime s e st (pre ++ post)).
  { intros s e st pre post. rewrite !points_loop_app.
    destruct (points_loop' reg scanTime s e st pre) as [st'|]; [|reflexivity].
    simpl. now rewrite Hstep. }
  split; [apply Hstep|]. split; [apply Hloop|].
  intros pre post Hpre Hpost Hfit.
  assert (Hsweep : classify_sweep' reg (pre ++ p :: post) scanTime =
                   classify_sweep' reg (pre ++ post) scanTime).
  { unfold classify_sweep.
    rewrite (sweep_orientation_interior pre post p Hpre Hpost Hfit).
    destruct (sweep_orientation (pre ++ post)) as [[s e]|]; [|reflexivity].
    assert (Hrej' : rejected (_nScans (reset reg)) p) by exact Hrej.
    clear Hstep Hloop.
    rewrite !points_loop_app.
    destruct (points_loop' (reset reg) scanTime s e
                (initial_loop (reset reg)) pre) as [st'|]; [|reflexivity].
    simpl. unfold point_step.
    now rewrite (rejected_skipped (reset reg) s e (halfPassed st') p Hrej'). }
  split; [exact Hsweep|].
  unfold process. now rewrite Hsweep.
Qed.

(** *** The start-up delay of the message handler *)

Local Abbreviation handle_messages' :=
  (handle_messages stamp interpolate transformToStartIMU ity).
Local Abbreviation processCloudMessage' :=
  (processCloudMessage stamp interpolate transformToStartIMU ity).

Lemma set_systemDelay_twice (reg : Reg) (d d' : Z) :
  set_systemDelay (set_systemDelay reg d) d' = set_systemDelay reg d'.
Proof. reflexivity. Qed.

Lemma handle_delayed (reg : Reg) (msgs : list CloudMessage) (d : Z) :
  Z.of_nat (length msgs) <= d ->
  handle_messages' (set_systemDelay reg d) msgs =
    (repeat Delayed (length msgs),
     Some (set_systemDelay reg (d - Z.of_nat (length msgs)))).
Proof.
  revert d. induction msgs as [|m rest IH]; intros d Hd.
  - simpl. now rewrite Z.sub_0_r.
  - simpl length in *. cbn [handle_messages].
    unfold processCloudMessage.
    replace (_systemDelay (set_systemDelay reg d) >? 0) with true
      by (symmetry; simpl; apply Z.gtb_lt; lia).
    unfold decrement_delay. rewrite set_systemDelay_twice.
    cbn [_systemDelay set_systemDelay].
    rewrite IH by lia. simpl repeat. do 3 f_equal. lia.
Qed.

(** C10.  After construction the handler discards the first 20 cloud
    messages: each of these calls only decrements [_systemDelay], which
    starts at 20, and returns without converting or processing the
    cloud; the 21st message is the first one [process] is called on. *)
Theorem first_twenty_messages_discarded (base : Reg)
    (msgs : list CloudMessage) (msg21 : CloudMessage) :
  (length msgs <= 20)%nat ->
  _systemDelay (construct base) = 20 /\
  handle_messages' (construct base) msgs =
    (repeat Delayed (length msgs),
     Some (set_systemDelay base (20 - Z.of_nat (length msgs)))) /\
  (length msgs = 20%nat ->
   handle_messages' (construct base) (msgs ++ [msg21]) =
     (repeat Delayed 20 ++ [Processed (fst msg21) (snd msg21)],
      process' (set_systemDelay base 0) (fst msg21) (snd msg21))).
Proof.
  intros Hlen. split; [reflexivity|].
  assert (Hpre : handle_messages' (construct base) msgs =
    (repeat Delayed (length msgs),
     Some (set_systemDelay base (20 - Z.of_nat (length msgs))))).
  { unfold construct. apply handle_delayed. lia. }
  split; [exact Hpre|].
  intros H20.
  assert (Happ : forall (l : list CloudMessage) (reg reg' : Reg) hs,
             handle_messages' reg l = (hs, Some reg') ->
             handle_messages' reg (l ++ [msg21]) =
               (hs ++ [snd (processCloudMessage' reg' msg21)],
                fst (processCloudMessage' reg' msg21))).
  { induction l as [|m l IH]; intros reg reg' hs H.
    - simpl in H. injection H as <- <-. simpl.
      destruct (processCloudMessage' reg msg21) as [[r|] h]; reflexivity.
    - simpl in *.
      destruct (processCloudMessage' reg m) as [[r|] h]; [|discriminate].
      destruct (handle_messages' r l) as [hs' final] eqn:E.
      injection H as <- ->.
      rewrite (IH r reg' hs' E). reflexivity. }
  rewrite (Happ _ _ _ _ Hpre). rewrite H20. reflexivity.
Qed.

(** *** The accesses of the sweep orientation *)

(** C9, as amended.  The accesses to the first point (index 0) and to
    the last point (index [cloudSize - 1]) are in bounds as soon as the
    input holds one point, hence under the precondition of at least two
    points; on an empty input [cloudSize - 1] wraps around to 2^64 - 1,
    both accesses are out of bounds and the operation is undefined.
    [process] makes no check of its own. *)
Theorem orientation_accesses (reg : Reg) (points : list PointXYZ)
    (scanTime : R) :
  Z.of_nat (length points) < 2 ^ 64 ->
  ((1 <= length points)%nat ->
   exists first last,
     nth_error points 0 = Some first /\
     nth_error points (length points - 1) = Some last /\
     vec_at points 0 = Some first /\
     vec_at points (size_t_wrap (Z.of_nat (length points) - 1)) = Some last /\
     sweep_orientation points <> None) /\
  (points = [] ->
   size_t_wrap (Z.of_nat (length points) - 1) = 2 ^ 64 - 1 /\
   vec_at points 0 = None /\
   vec_at points (size_t_wrap (Z.of_nat (length points) - 1)) = None /\
   sweep_orientation points = None /\
   process' reg points scanTime = None).
Proof.
  intros Hfit. split.
  - intros Hlen.
    destruct (nth_error points 0) as [first|] eqn:E0;
      [|apply nth_error_None in E0; lia].
    destruct (nth_error points (length points - 1)) as [last|] eqn:E1;
      [|apply nth_error_None in E1; lia].
    exists first, last. split; [reflexivity|]. split; [reflexivity|].
    split; [exact (vec_at_nth points 0 first E0)|].
    split.
    + rewrite last_index_wrap by assumption. now apply vec_at_nth.
    + rewrite (sweep_orientation_defined points first last); easy.
  - intros ->. repeat split; reflexivity.
Qed.

(** *** The loop without history *)

Lemma compensate_empty_history (reg : Reg) (scanTime : R) (idx : Z)
    (cur : IMUState) (point : PointXYZI) (relTime : fval) :
  _imuHistory reg = [] ->
  compensate' reg scanTime idx cur point relTime = Some (idx, cur, point).
Proof. intros H. unfold compensate. now rewrite H. Qed.

(** Without a history the loop leaves the cursor and [_imuCur] alone and
    pushes remapped input points. *)
Lemma points_loop_uncompensated (reg : Reg) (scanTime : R) (s e : fval)
    (P : PointXYZI -> Prop) (points : list PointXYZ) (st st' : Loop) :
  _imuHistory reg = [] ->
  (forall p v, In p points -> P (set_intensity (remap p) v)) ->
  points_loop' reg scanTime s e st points = Some st' ->
  Forall (Forall P) (laserCloudScans st) ->
  Forall (Forall P) (laserCloudScans st') /\
  imuIdx st' = imuIdx st /\ imuCur st' = imuCur st.
Proof.
  intros Hh. revert st.
  induction points as [|p rest IH]; intros st HP Hloop HF; simpl in Hloop.
  - injection Hloop as <-. auto.
  - destruct (point_step' reg scanTime s e st p) as [st1|] eqn:Hstep;
      [|discriminate].
    assert (H1 : Forall (Forall P) (laserCloudScans st1) /\
                 imuIdx st1 = imuIdx st /\ imuCur st1 = imuCur st).
    { unfold point_step in Hstep.
      destruct (classify reg s e (halfPassed st) p)
        as [| |id ori rt hp']; try discriminate.
      - injection Hstep as <-. auto.
      - rewrite (compensate_empty_history reg _ _ _ _ _ Hh) in Hstep.
        destruct (push_scan (laserCloudScans st) (Z.to_nat id) _)
          as [scans'|] eqn:Hpush; [|discriminate].
        injection Hstep as <-. simpl. split; [|auto].
        eapply push_scan_Forall; [exact Hpush | exact HF |].
        apply HP. now left. }
    destruct H1 as (HF1 & Hi1 & Hc1).
    destruct (IH st1) as (HF' & Hi' & Hc'); auto.
    + intros q v Hq. apply HP. now right.
    + repeat split; congruence.
Qed.

(** *** The boundary clamp at the first history entry *)

Lemma after_stamp_at_zero (scanTime : R) (s : IMUState) :
  after_stamp stamp scanTime (FFin 0) s = Rltb (stamp s) scanTime.
Proof.
  unfold after_stamp, fgt. simpl. unfold Rltb.
  destruct (Rlt_dec 0 (scanTime - stamp s + 0)),
           (Rlt_dec (stamp s) scanTime); try reflexivity; lra.
Qed.

Lemma first_entry_clamp (scanTime : R) (first : IMUState)
    (rest : list IMUState) :
  stamp first = scanTime ->
  advance_imuIdx stamp (first :: rest) scanTime (FFin 0) 0 = 0 /\
  select_imu stamp (first :: rest) scanTime (FFin 0) 0 = Some (Direct first).
Proof.
  intros Hst.
  assert (Hat : vec_at (first :: rest) 0 = Some first)
    by (apply (vec_at_nth (first :: rest) 0 first); reflexivity).
  split.
  - unfold advance_imuIdx. simpl length. cbn [advance_imuIdx_fuel].
    unfold advance_cond. rewrite Hat, after_stamp_at_zero.
    rewrite (proj2 (Rltb_false _ _)) by lra.
    now rewrite andb_false_r.
  - unfold select_imu. now rewrite Hat.
Qed.

(** C7, as amended.  A point at relative time 0, processed while the
    cursor is at the first entry of a non-empty history whose first stamp
    is the sweep time, leaves the cursor there and is compensated with
    that first entry itself, not with an interpolated state. *)
Theorem first_entry_used_directly (reg : Reg) (scanTime : R)
    (first : IMUState) (rest : list IMUState) (cur : IMUState)
    (point : PointXYZI) :
  _imuHistory reg = first :: rest ->
  stamp first = scanTime ->
  advance_imuIdx stamp (_imuHistory reg) scanTime (FFin 0) 0 = 0 /\
  select_imu stamp (_imuHistory reg) scanTime (FFin 0) 0
    = Some (Direct first) /\
  compensate' reg scanTime 0 cur point (FFin 0)
    = Some (0, first,
            transformToStartIMU (_imuStart reg) first point (FFin 0)).
Proof.
  intros Hh Hst.
  destruct (first_entry_clamp scanTime first rest Hst) as [Hadv Hsel].
  rewrite Hh. split; [exact Hadv|]. split; [exact Hsel|].
  unfold compensate. rewrite Hh, Hadv, Hsel. reflexivity.
Qed.

Lemma classify_accepted (reg : Reg) (s e : fval) (hp : bool) (p : PointXYZ)
    (scanID : Z) :
  accepted (_nScans reg) p = true ->
  ring_of (_nScans reg) p = Some scanID ->
  classify reg s e hp p =
    Classified scanID
      (fst (unwrap_ori s e hp (remap p)))
      (relTime_of (_scanPeriod reg) s e (fst (unwrap_ori s e hp (remap p))))
      (snd (unwrap_ori s e hp (remap p))).
Proof.
  intros Ha Hr.
  destruct (classify_cases reg s e hp p)
    as [[Ha' _] | [_ (id & Hid & _ & Hc)]]; [congruence|].
  rewrite Hr in Hid. injection Hid as <-. exact Hc.
Qed.

Lemma point_step_classified (reg : Reg) (scanTime : R) (s e : fval)
    (st : Loop) (p : PointXYZ) (scanID : Z) (ori relTime : fval) (hp' : bool)
    (idx' : Z) (cur' : IMUState) (point' : PointXYZI) :
  classify reg s e (halfPassed st) p = Classified scanID ori relTime hp' ->
  compensate' reg scanTime (imuIdx st) (imuCur st)
    (set_intensity (remap p) (fadd (f_of_Z scanID) relTime)) relTime
    = Some (idx', cur', point') ->
  (Z.to_nat scanID < length (laserCloudScans st))%nat ->
  exists scans',
    point_step' reg scanTime s e st p
      = Some {| imuIdx := idx'; halfPassed := hp'; imuCur := cur';
                laserCloudScans := scans' |} /\
    length scans' = length (laserCloudScans st).
Proof.
  intros Hc Hcomp Hlen. unfold point_step. rewrite Hc, Hcomp.
  destruct (push_scan_defined (laserCloudScans st) (Z.to_nat scanID) point'
              Hlen) as [scans' Hpush].
  rewrite Hpush. exists scans'. split; [reflexivity|].
  eapply push_scan_length; eassumption.
Qed.

End RegistrationProperties.

(** ** The examples *)

Lemma roundedAngle_nonneg (theta : R) (r : Z) :
  (0 <= theta)%R -> (IZR r <= theta + 1 / 2 < IZR r + 1)%R ->
  roundedAngle (FFin theta) = Some r.
Proof.
  intros H0 Hr. rewrite roundedAngle_fin.
  rewrite (proj2 (Rltb_false theta 0)) by lra.
  unfold Rtrunc. rewrite (proj2 (Rltb_false _ 0)) by lra.
  f_equal. now apply Zfloor_eq.
Qed.

Lemma vertical_angle_ahead : vertical_angle (remap p_ahead) = FFin 0.
Proof.
  destruct (vertical_angle_valid 0 0 1) as (theta & Ht & _ & Hv & _); [lra|].
  change (remap p_ahead) with (mkXYZI (FFin 0) (FFin 0) (FFin 1) (FFin 0)).
  rewrite Ht, Hv by lra. f_equal.
  unfold Rdiv at 2. rewrite Rmult_0_l, atan_0. field. apply PI_neq0.
Qed.

Lemma vertical_angle_high : vertical_angle (remap p_high) = FFin 45.
Proof.
  destruct (vertical_angle_valid 0 1 1) as (theta & Ht & _ & Hv & _); [lra|].
  change (remap p_high) with (mkXYZI (FFin 0) (FFin 1) (FFin 1) (FFin 0)).
  rewrite Ht, Hv by lra. f_equal.
  replace (0 * 0 + 1 * 1)%R with 1%R by ring.
  rewrite sqrt_1. replace (1 / 1)%R with 1%R by field.
  rewrite atan_1. field. apply PI_neq0.
Qed.

Lemma survives_ahead : survives_validity p_ahead = true.
Proof.
  unfold survives_validity, near_zero. simpl.
  rewrite (proj2 (Rltb_false _ _)); [reflexivity | lra].
Qed.

Lemma survives_high : survives_validity p_high = true.
Proof.
  unfold survives_validity, near_zero. simpl.
  rewrite (proj2 (Rltb_false _ _)); [reflexivity | lra].
Qed.

Lemma ring_of_ahead : ring_of 16 p_ahead = Some 15.
Proof.
  unfold ring_of. rewrite vertical_angle_ahead.
  rewrite (roundedAngle_nonneg 0 0); [reflexivity | lra | lra].
Qed.

Lemma ring_of_high : ring_of 16 p_high = Some 45.
Proof.
  unfold ring_of. rewrite vertical_angle_high.
  rewrite (roundedAngle_nonneg 45 45); [reflexivity | lra | lra].
Qed.

Lemma accepted_ahead : accepted 16 p_ahead = true.
Proof. unfold accepted. now rewrite survives_ahead, ring_of_ahead. Qed.

Lemma accepted_high : accepted 16 p_high = false.
Proof. unfold accepted. now rewrite survives_high, ring_of_high. Qed.

Lemma ring_ranges_contiguous_witness :
  well_formed reg16 [p_ahead; p_high; p_ahead] = true /\
  exists st reg',
    classify_sweep sample_stamp sample_interpolate sample_transform
      reg16 [p_ahead; p_high; p_ahead] 0 = Some st /\
    process sample_stamp sample_interpolate sample_transform IndexInt
      reg16 [p_ahead; p_high; p_ahead] 0 = Some reg' /\
    (nth 0 (_scanStartIndices reg') 0 > nth 0 (_scanEndIndices reg') 0 <->
     nth 0 (laserCloudScans st) [] = []).
Proof.
  split; [reflexivity|].
  destruct (ring_ranges_contiguous sample_stamp sample_interpolate
              sample_transform IndexInt reg16 [p_ahead; p_high; p_ahead] 0
              eq_refl eq_refl)
    as (st & reg' & Hst & Hp & _ & _ & _ & _ & Hi).
  exists st, reg'. split; [exact Hst|]. split; [exact Hp|].
  destruct (Hi 0%nat) as (_ & _ & _ & _ & _ & H); [simpl; lia|]. exact H.
Defined.

Lemma ring_sum_counts_accepted_witness :
  well_formed reg16 [p_ahead; p_high; p_ahead] = true /\
  exists st reg',
    classify_sweep sample_stamp sample_interpolate sample_transform
      reg16 [p_ahead; p_high; p_ahead] 0 = Some st /\
    process sample_stamp sample_interpolate sample_transform IndexInt
      reg16 [p_ahead; p_high; p_ahead] 0 = Some reg' /\
    ring_points_sum (laserCloudScans st)
      (_scanStartIndices reg') (_scanEndIndices reg')
    = Z.of_nat (length (filter (accepted 16) [p_ahead; p_high; p_ahead])).
Proof.
  split; [reflexivity|].
  apply (ring_sum_counts_accepted sample_stamp sample_interpolate
           sample_transform IndexInt reg16 [p_ahead; p_high; p_ahead] 0).
  reflexivity.
Defined.

(** C4, as the specification states it, fails: a point 45 degrees above
    the horizon survives the validity filter, but a 16-ring registration
    gives it ring index 45 and drops it, so the ring ranges count one
    point fewer than the validity filter lets through. *)
Lemma ring_sum_not_validity_count :
  exists st reg',
    classify_sweep sample_stamp sample_interpolate sample_transform
      reg16 [p_ahead; p_high; p_ahead] 0 = Some st /\
    process sample_stamp sample_interpolate sample_transform IndexInt
      reg16 [p_ahead; p_high; p_ahead] 0 = Some reg' /\
    length (filter survives_validity [p_ahead; p_high; p_ahead]) = 3%nat /\
    ring_points_sum (laserCloudScans st)
      (_scanStartIndices reg') (_scanEndIndices reg') = 2 /\
    ring_points_sum (laserCloudScans st)
      (_scanStartIndices reg') (_scanEndIndices reg')
    <> Z.of_nat (length (filter survives_validity [p_ahead; p_high; p_ahead])).
Proof.
  destruct (process_spec sample_stamp sample_interpolate sample_transform
              IndexInt reg16 [p_ahead; p_high; p_ahead] 0 eq_refl)
    as (st & reg' & Hst & Hp & _ & Hcount & _ & Hs & He & _).
  exists st, reg'. split; [exact Hst|]. split; [exact Hp|].
  assert (Hv : length (filter survives_validity [p_ahead; p_high; p_ahead])
               = 3%nat).
  { simpl. now rewrite survives_ahead, survives_high. }
  assert (Ha : length (concat (laserCloudScans st)) = 2%nat).
  { rewrite Hcount. change (_nScans reg16) with 16. simpl.
    now rewrite accepted_ahead, accepted_high. }
  assert (Hsum : ring_points_sum (laserCloudScans st)
                   (_scanStartIndices reg') (_scanEndIndices reg') = 2).
  { rewrite Hs, He, ring_points_sum_total by (rewrite ?Ha; simpl; lia).
    now rewrite Ha. }
  split; [exact Hv|]. split; [exact Hsum|].
  rewrite Hsum, Hv. discriminate.
Qed.

Lemma orientation_accesses_witness :
  Z.of_nat (length [p_ahead; p_ahead]) < 2 ^ 64 /\
  (1 <= length [p_ahead; p_ahead])%nat /\
  exists first last,
    vec_at [p_ahead; p_ahead] 0 = Some first /\
    vec_at [p_ahead; p_ahead]
      (size_t_wrap (Z.of_nat (length [p_ahead; p_ahead]) - 1)) = Some last.
Proof.
  assert (Hfit : Z.of_nat (length [p_ahead; p_ahead]) < 2 ^ 64)
    by (simpl; lia).
  assert (Hlen : (1 <= length [p_ahead; p_ahead])%nat) by (simpl; lia).
  split; [exact Hfit|]. split; [exact Hlen|].
  destruct (orientation_accesses sample_stamp sample_interpolate
              sample_transform IndexInt reg16 [p_ahead; p_ahead] 0 Hfit)
    as [H _].
  destruct (H Hlen) as (first & last & _ & _ & H0 & H1 & _).
  exists first, last. split; assumption.
Defined.

(** C9, as the specification states it, fails on a sweep of one point:
    both accesses read index 0, nothing is undefined and the sweep is
    processed. *)
Lemma single_point_sweep_defined :
  (length [p_ahead] < 2)%nat /\
  vec_at [p_ahead] 0 = Some p_ahead /\
  vec_at [p_ahead] (size_t_wrap (Z.of_nat (length [p_ahead]) - 1))
    = Some p_ahead /\
  sweep_orientation [p_ahead] <> None /\
  exists reg',
    process sample_stamp sample_interpolate sample_transform IndexInt
      reg16 [p_ahead] 0 = Some reg'.
Proof.
  split; [simpl; lia|]. split; [reflexivity|]. split; [reflexivity|].
  split; [discriminate|].
  destruct (process_spec sample_stamp sample_interpolate sample_transform
              IndexInt reg16 [p_ahead] 0 eq_refl) as (st & reg' & _ & Hp & _).
  now exists reg'.
Qed.

Lemma corrected_span_below_M_PI_witness :
  sweep_orientation32 atan2f_near_axis
    [first_before_axis; last_before_half_turn]
  = Some (float_of 10555312 (- 45), to_float M_PI) /\
  SFltb (to_double (SFsub 24 128 (to_float M_PI) (float_of 10555312 (- 45))))
        M_PI = true.
Proof.
  pose proof (corrected_span_below_M_PI atan2f_near_axis eq_refl eq_refl)
    as H.
  cbv zeta in H. destruct H as (_ & _ & Ho & _ & Hs).
  split; [exact Ho | exact Hs].
Defined.


Lemma rejected_high : rejected (_nScans reg16) p_high.
Proof.
  right. right. exists 45. split; [exact ring_of_high | right; simpl; lia].
Qed.

Lemma rejected_point_skipped_witness :
  rejected (_nScans reg16) p_high /\
  forall st : LoopState IMUSample,
    point_step sample_stamp sample_interpolate sample_transform
      reg16 0 (FFin 0) (FFin (2 * PI)) st p_high = Some st.
Proof.
  split; [exact rejected_high|].
  apply (rejected_point_skipped sample_stamp sample_interpolate
           sample_transform IndexInt reg16 0 (FFin 0) (FFin (2 * PI)) p_high
           rejected_high).
Defined.

Lemma first_twenty_messages_discarded_witness :
  (length (repeat ([p_ahead; p_ahead], 0%R) 20) <= 20)%nat /\
  handle_messages sample_stamp sample_interpolate sample_transform IndexInt
    (construct reg16) (repeat ([p_ahead; p_ahead], 0%R) 20) =
    (repeat Delayed 20, Some (set_systemDelay reg16 0)).
Proof.
  assert (H : (length (repeat ([p_ahead; p_ahead], 0%R) 20) <= 20)%nat)
    by (simpl; lia).
  split; [exact H|].
  exact (proj1 (proj2 (first_twenty_messages_discarded sample_stamp
                         sample_interpolate sample_transform IndexInt reg16
                         (repeat ([p_ahead; p_ahead], 0%R) 20)
                         ([p_ahead; p_ahead], 0%R) H))).
Defined.

(** Concrete angles. *)

Lemma PI_gt_3 : (3 < PI)%R.
Proof. pose proof PI2_3_2. lra. Qed.

Lemma Ratan2_0_1 : Ratan2 0 1 = 0%R.
Proof.
  unfold Ratan2. rewrite (proj2 (Rltb_true 0 1)) by lra.
  unfold Rdiv. rewrite Rmult_0_l. apply atan_0.
Qed.

Lemma Ratan2_m1_0 : Ratan2 (- 1) 0 = (- (PI / 2))%R.
Proof.
  unfold Ratan2.
  rewrite (proj2 (Rltb_false 0 0)) by lra.
  rewrite (proj2 (Rltb_false 0 (- 1))) by lra.
  rewrite (proj2 (Rltb_true (- 1) 0)) by lra.
  reflexivity.
Qed.

(** Evaluation of the model on concrete reals. *)

Ltac Rdecide :=
  repeat match goal with
  | |- context [Rltb ?a ?b] =>
      first [rewrite (proj2 (Rltb_true a b)) by lra
            | rewrite (proj2 (Rltb_false a b)) by lra]
  | |- context [Req_zero ?a] =>
      first [rewrite (proj2 (Req_zero_true a)) by lra
            | rewrite (proj2 (Req_zero_false a)) by lra]
  end.

Ltac fcompute :=
  pose proof PI_gt_3; pose proof PI_4;
  unfold two_PI, f_PI, f_of_Z;
  repeat (progress (simpl; rewrite ?Ratan2_0_1, ?Ratan2_m1_0; Rdecide)).

Lemma orientation_ahead (mid : list PointXYZ) :
  Z.of_nat (length (p_ahead :: mid ++ [p_ahead])) < 2 ^ 64 ->
  sweep_orientation (p_ahead :: mid ++ [p_ahead])
  = Some (FFin 0, FFin (2 * PI)).
Proof.
  intros Hfit.
  rewrite (sweep_orientation_defined _ p_ahead p_ahead Hfit);
    [| reflexivity
     | change (p_ahead :: mid ++ [p_ahead]) with ((p_ahead :: mid) ++ [p_ahead]);
       apply nth_error_last].
  unfold correct_endOri, fgt, fsub. fcompute.
  do 2 f_equal; f_equal; lra.
Qed.

Lemma unwrap_ahead :
  unwrap_ori (FFin 0) (FFin (2 * PI)) false (remap p_ahead) = (FFin 0, false).
Proof.
  unfold unwrap_ori, fgt, fsub. fcompute. do 2 f_equal. lra.
Qed.

Lemma unwrap_side :
  unwrap_ori (FFin 0) (FFin (2 * PI)) false (remap p_side)
  = (FFin (PI / 2), false).
Proof.
  unfold unwrap_ori, fgt, fsub. fcompute. do 2 f_equal. lra.
Qed.

Lemma relTime_ahead :
  relTime_of (FFin (1 / 10)) (FFin 0) (FFin (2 * PI)) (FFin 0) = FFin 0.
Proof.
  unfold relTime_of, fsub. fcompute. f_equal. field. lra.
Qed.

Lemma relTime_side :
  relTime_of (FFin (1 / 10)) (FFin 0) (FFin (2 * PI)) (FFin (PI / 2))
  = FFin (1 / 40).
Proof.
  unfold relTime_of, fsub. fcompute. f_equal. field. lra.
Qed.

Lemma vertical_angle_side : vertical_angle (remap p_side) = FFin 0.
Proof.
  destruct (vertical_angle_valid (- 1) 0 0) as (theta & Ht & _ & Hv & _); [lra|].
  change (remap p_side) with (mkXYZI (FFin (- 1)) (FFin 0) (FFin 0) (FFin 0)).
  rewrite Ht, Hv by lra. f_equal.
  unfold Rdiv at 2. rewrite Rmult_0_l, atan_0. field. apply PI_neq0.
Qed.

Lemma accepted_side : accepted 16 p_side = true /\ ring_of 16 p_side = Some 15.
Proof.
  assert (Hr : ring_of 16 p_side = Some 15).
  { unfold ring_of. rewrite vertical_angle_side.
    rewrite (roundedAngle_nonneg 0 0); [reflexivity | lra | lra]. }
  split; [|exact Hr].
  unfold accepted. rewrite Hr.
  unfold survives_validity, near_zero. simpl.
  rewrite (proj2 (Rltb_false _ _)); [reflexivity | lra].
Qed.

Lemma advance_after_side :
  advance_imuIdx sample_stamp [sample0; sample1] 0 (FFin (1 / 40)) 0 = 1.
Proof.
  assert (H0 : advance_cond sample_stamp [sample0; sample1] 0 (FFin (1 / 40)) 0
               = true).
  { unfold advance_cond.
    change (vec_at [sample0; sample1] 0) with (Some sample0).
    unfold after_stamp, fgt. fcompute. reflexivity. }
  unfold advance_imuIdx. simpl length. cbn [advance_imuIdx_fuel].
  rewrite H0. reflexivity.
Qed.

Lemma advance_stays :
  advance_imuIdx sample_stamp [sample0; sample1] 0 (FFin 0) 1 = 1.
Proof. reflexivity. Qed.

Lemma select_at_second :
  select_imu sample_stamp [sample0; sample1] 0 (FFin 0) 1
  = Some (Interpolated sample1 sample0 (FFin 1)).
Proof.
  unfold select_imu, after_stamp, fgt, fsub.
  fcompute. do 2 f_equal. f_equal. field.
Qed.

Lemma select_after_side :
  exists ratio,
  select_imu sample_stamp [sample0; sample1] 0 (FFin (1 / 40)) 1
  = Some (Interpolated sample1 sample0 ratio).
Proof.
  unfold select_imu, after_stamp, fgt, fsub.
  fcompute. eexists. reflexivity.
Qed.

Lemma first_entry_used_directly_witness :
  _imuHistory reg16_imu = [sample0; sample1] /\
  sample_stamp sample0 = 0%R /\
  select_imu sample_stamp (_imuHistory reg16_imu) 0 (FFin 0) 0
    = Some (Direct sample0).
Proof.
  split; [reflexivity|]. split; [reflexivity|].
  exact (proj1 (proj2 (first_entry_used_directly sample_stamp
                         sample_interpolate sample_transform reg16_imu 0
                         sample0 [sample1] sample0 (remap p_ahead)
                         eq_refl eq_refl))).
Defined.

Lemma classify_ahead (hist : list IMUSample) :
  classify (mkReg (FFin (1 / 10)) 16 hist 0 sample0 sample0 [] [] [] 0)
    (FFin 0) (FFin (2 * PI)) false p_ahead
  = Classified 15 (FFin 0) (FFin 0) false.
Proof.
  rewrite (classify_accepted
             (mkReg (FFin (1 / 10)) 16 hist 0 sample0 sample0 [] [] [] 0)
             _ _ _ p_ahead 15 accepted_ahead ring_of_ahead).
  rewrite unwrap_ahead. cbn [fst snd _scanPeriod].
  now rewrite relTime_ahead.
Qed.

Lemma classify_side (hist : list IMUSample) :
  classify (mkReg (FFin (1 / 10)) 16 hist 0 sample0 sample0 [] [] [] 0)
    (FFin 0) (FFin (2 * PI)) false p_side
  = Classified 15 (FFin (PI / 2)) (FFin (1 / 40)) false.
Proof.
  rewrite (classify_accepted
             (mkReg (FFin (1 / 10)) 16 hist 0 sample0 sample0 [] [] [] 0)
             _ _ _ p_side 15 (proj1 accepted_side) (proj2 accepted_side)).
  rewrite unwrap_side. cbn [fst snd _scanPeriod].
  now rewrite relTime_side.
Qed.

(** After a point ahead and a point a quarter turn later, the cursor has
    left the first entry of the history. *)
Lemma loop_ahead_side :
  exists st,
    points_loop sample_stamp sample_interpolate sample_transform
      (reset reg16_imu) 0 (FFin 0) (FFin (2 * PI))
      (initial_loop (reset reg16_imu)) [p_ahead; p_side] = Some st /\
    imuIdx st = 1 /\ halfPassed st = false.
Proof.
  destruct (first_entry_clamp sample_stamp 0 sample0 [sample1] eq_refl)
    as [Hadv Hsel].
  destruct select_after_side as [ratio Hsel1].
  destruct (point_step_classified sample_stamp sample_interpolate
              sample_transform (reset reg16_imu) 0 (FFin 0) (FFin (2 * PI))
              (initial_loop (reset reg16_imu)) p_ahead 15 (FFin 0) (FFin 0)
              false 0 sample0
              (sample_transform sample0 sample0
                 (set_intensity (remap p_ahead) (fadd (f_of_Z 15) (FFin 0)))
                 (FFin 0)))
    as (scans1 & Hstep1 & Hlen1).
  { apply (classify_ahead [sample0; sample1]). }
  { unfold compensate.
    change (_imuHistory (reset reg16_imu)) with [sample0; sample1].
    change (imuIdx (initial_loop (reset reg16_imu))) with 0.
    rewrite Hadv, Hsel. reflexivity. }
  { simpl. lia. }
  set (st1 := {| imuIdx := 0; halfPassed := false; imuCur := sample0;
                 laserCloudScans := scans1 |}) in *.
  destruct (point_step_classified sample_stamp sample_interpolate
              sample_transform (reset reg16_imu) 0 (FFin 0) (FFin (2 * PI))
              st1 p_side 15 (FFin (PI / 2)) (FFin (1 / 40)) false 1
              (sample_interpolate sample1 sample0 ratio)
              (sample_transform sample0
                 (sample_interpolate sample1 sample0 ratio)
                 (set_intensity (remap p_side)
                    (fadd (f_of_Z 15) (FFin (1 / 40))))
                 (FFin (1 / 40))))
    as (scans2 & Hstep2 & Hlen2).
  { apply (classify_side [sample0; sample1]). }
  { unfold compensate.
    change (_imuHistory (reset reg16_imu)) with [sample0; sample1].
    change (imuIdx st1) with 0.
    rewrite advance_after_side, Hsel1. reflexivity. }
  { change (laserCloudScans st1) with scans1. rewrite Hlen1. simpl. lia. }
  eexists. cbn [points_loop]. rewrite Hstep1, Hstep2.
  split; [reflexivity|]. split; reflexivity.
Qed.

(** C7, as the specification states it, fails: in the sweep
    [p_ahead; p_side; p_ahead] the third point has relative time 0 and the
    first stamp of the history is the sweep time, but the second point has
    moved the shared cursor to the second entry, so the third point is
    compensated with a state interpolated between the two entries. *)
Lemma later_point_at_time_zero_interpolated :
  sample_stamp sample0 = 0%R /\
  _imuHistory (reset reg16_imu) = [sample0; sample1] /\
  sweep_orientation [p_ahead; p_side; p_ahead]
    = Some (FFin 0, FFin (2 * PI)) /\
  exists st,
    points_loop sample_stamp sample_interpolate sample_transform
      (reset reg16_imu) 0 (FFin 0) (FFin (2 * PI))
      (initial_loop (reset reg16_imu)) [p_ahead; p_side] = Some st /\
    classify (reset reg16_imu) (FFin 0) (FFin (2 * PI)) (halfPassed st) p_ahead
      = Classified 15 (FFin 0) (FFin 0) false /\
    advance_imuIdx sample_stamp [sample0; sample1] 0 (FFin 0) (imuIdx st) = 1 /\
    select_imu sample_stamp [sample0; sample1] 0 (FFin 0) 1
      = Some (Interpolated sample1 sample0 (FFin 1)) /\
    select_imu sample_stamp [sample0; sample1] 0 (FFin 0) 1
      <> Some (Direct sample0).
Proof.
  split; [reflexivity|]. split; [reflexivity|].
  split; [apply (orientation_ahead [p_side]); simpl; lia|].
  destruct loop_ahead_side as (st & Hloop & Hidx & Hhp).
  exists st. split; [exact Hloop|].
  rewrite Hhp, Hidx.
  split; [apply (classify_ahead [sample0; sample1])|].
  split; [exact advance_stays|].
  split; [exact select_at_second|].
  rewrite select_at_second. discriminate.
Qed.

(** * Further properties of the code *)

(** ** The bounds of the unwrap window (lines 133-147) *)

Lemma fdiv_PI_2 : fdiv f_PI (FFin 2) = FFin (PI / 2).
Proof.
  unfold fdiv, f_PI. now rewrite (proj2 (Req_zero_false 2)) by lra.
Qed.

Lemma fdiv_3PI_2 : fdiv (fmul f_PI (FFin 3)) (FFin 2) = FFin (PI * 3 / 2).
Proof.
  unfold fdiv, fmul, f_PI. now rewrite (proj2 (Req_zero_false 2)) by lra.
Qed.

(** ** The sweep orientation on particular sweeps (lines 90-97) *)

(** When the first and the last point of the sweep lie in the same
    horizontal direction (in particular when the sweep has a single
    point), no correction applies and the span is exactly one turn. *)
Theorem same_direction_spans_one_turn (points : list PointXYZ)
    (first last : PointXYZ) (a0 b0 al bl : R) :
  Z.of_nat (length points) < 2 ^ 64 ->
  nth_error points 0 = Some first ->
  nth_error points (length points - 1) = Some last ->
  in_x first = FFin a0 -> in_y first = FFin b0 ->
  in_x last = FFin al -> in_y last = FFin bl ->
  Ratan2 bl al = Ratan2 b0 a0 ->
  sweep_orientation points
  = Some (FFin (- Ratan2 b0 a0), FFin (- Ratan2 b0 a0 + 2 * PI)).
Proof.
  intros Hfit H0 Hl Hx0 Hy0 Hxl Hyl Hsame.
  rewrite (sweep_orientation_defined points first last Hfit H0 Hl).
  rewrite Hx0, Hy0, Hxl, Hyl. cbn [fatan2 fopp]. rewrite Hsame.
  change (fadd (FFin (- Ratan2 b0 a0)) two_PI)
    with (FFin (- Ratan2 b0 a0 + 2 * PI)).
  pose proof PI_RGT_0 as Hpi.
  unfold correct_endOri, fgt, fsub, f_PI. cbn [fopp fadd fmul flt].
  rewrite (proj2 (Rltb_false _ _)) by lra.
  rewrite (proj2 (Rltb_false _ _)) by lra.
  reflexivity.
Qed.

Lemma same_direction_spans_one_turn_witness :
  sweep_orientation [p_side]
  = Some (FFin (- Ratan2 (- 1) 0), FFin (- Ratan2 (- 1) 0 + 2 * PI)).
Proof.
  apply (same_direction_spans_one_turn [p_side] p_side p_side 0 (- 1) 0 (- 1));
    reflexivity.
Defined.

(** ** The first point of the sweep (lines 90, 131-153) *)

(** The horizontal angle of a point is computed in the remapped frame by
    the formula the bootstrap applies to the raw first point.  So, for a
    finite scan period, the first point of the sweep, when it is
    classified, gets the angle [startOri] and the relative time 0 and
    does not raise the flag, whatever finite [endOri] other than
    [startOri] the correction of lines 93-97 has left. *)
Theorem first_point_at_time_zero {IMUState : Type}
    (reg : ScanRegistration IMUState) (points : list PointXYZ)
    (first last : PointXYZ) (T : R) :
  Z.of_nat (length points) < 2 ^ 64 ->
  nth_error points 0 = Some first ->
  nth_error points (length points - 1) = Some last ->
  _scanPeriod reg = FFin T ->
  accepted (_nScans reg) first = true ->
  exists (startOri : R) (e : fval) (scanID : Z),
    sweep_orientation points = Some (FFin startOri, e) /\
    forall endOri : R, endOri <> startOri ->
      exists relTime : R,
        classify reg (FFin startOri) (FFin endOri) false first
          = Classified scanID (FFin startOri) (FFin relTime) false /\
        relTime = 0%R.
Proof.
  intros Hfit H0 Hl HT Ha. pose proof PI_RGT_0 as Hpi.
  assert (Hv : survives_validity first = true).
  { unfold accepted in Ha. now apply andb_true_iff in Ha. }
  destruct (survives_validity_inv first Hv) as (a & b & c & Hf & _).
  destruct (ring_of (_nScans reg) first) as [id|] eqn:Hring.
  2:{ unfold accepted in Ha. rewrite Hring, andb_false_r in Ha.
      discriminate. }
  exists (- Ratan2 a c)%R, 
    (correct_endOri (FFin (- Ratan2 a c))
       (fadd (fopp (fatan2 (in_y last) (in_x last))) two_PI)), id.
  split.
  { rewrite (sweep_orientation_defined points first last Hfit H0 Hl).
    rewrite Hf. reflexivity. }
  intros endOri Hne.
  exists (T * (- Ratan2 a c + - - Ratan2 a c) / (endOri + - - Ratan2 a c))%R.
  split; [|unfold Rdiv; ring].
  rewrite (classify_accepted reg _ _ false first id Ha Hring).
  rewrite Hf.
  change (remap (mkXYZ (FFin c) (FFin a) (FFin b)))
    with (mkXYZI (FFin a) (FFin b) (FFin c) (FFin 0)).
  assert (Hu : unwrap_ori (FFin (- Ratan2 a c)) (FFin endOri) false
                 (mkXYZI (FFin a) (FFin b) (FFin c) (FFin 0))
               = (FFin (- Ratan2 a c), false)).
  { unfold unwrap_ori. cbn [negb x z fatan2 fopp].
    rewrite fdiv_PI_2, fdiv_3PI_2.
    unfold fgt, fsub, f_PI. cbn [flt fadd fopp].
    rewrite (proj2 (Rltb_false _ _)) by lra.
    rewrite (proj2 (Rltb_false _ _)) by lra.
    cbn [flt fadd fopp].
    rewrite (proj2 (Rltb_false _ _)) by lra. reflexivity. }
  rewrite Hu, HT. cbn [fst snd].
  unfold relTime_of, fsub. cbn [fopp fadd fmul]. unfold fdiv.
  rewrite (proj2 (Req_zero_false (endOri + - - Ratan2 a c))) by lra.
  reflexivity.
Qed.

Lemma first_point_at_time_zero_witness :
  exists (startOri : R) (e : fval) (scanID : Z),
    sweep_orientation [p_ahead; p_side; p_ahead] = Some (FFin startOri, e) /\
    forall endOri : R, endOri <> startOri ->
      exists relTime : R,
        classify reg16 (FFin startOri) (FFin endOri) false p_ahead
          = Classified scanID (FFin startOri) (FFin relTime) false /\
        relTime = 0%R.
Proof.
  apply (first_point_at_time_zero reg16 [p_ahead; p_side; p_ahead]
           p_ahead p_ahead (1 / 10));
    try reflexivity.
  exact accepted_ahead.
Defined.

(** ** The ring index (lines 125-126) *)

(** A rounded angle [r] passes the range check exactly when
    [|r| <= N - 1].  The mapping is not injective on that range: a
    positive [r] and the non-positive [r - (N - 1)] get the same ring
    index [r], while ring 0 is reached from [- (N - 1)] only. *)
Theorem ring_index_mapping (nScans r : Z) :
  (scanID_out_of_range nScans (scanID_of nScans r) = false <->
   - (nScans - 1) <= r <= nScans - 1) /\
  (0 < r <= nScans - 1 ->
   scanID_of nScans r = r /\ scanID_of nScans (r - (nScans - 1)) = r) /\
  (scanID_of nScans r = 0 -> r = - (nScans - 1)).
Proof.
  unfold scanID_out_of_range, scanID_of.
  split; [|split].
  - rewrite orb_false_iff, Z.gtb_ltb, !Z.ltb_ge.
    destruct (0 <? r) eqn:Hr;
      [apply Z.ltb_lt in Hr | apply Z.ltb_ge in Hr]; lia.
  - intros Hr.
    replace (0 <? r) with true by (symmetry; apply Z.ltb_lt; lia).
    replace (0 <? r - (nScans - 1)) with false
      by (symmetry; apply Z.ltb_ge; lia).
    lia.
  - destruct (0 <? r) eqn:Hr;
      [apply Z.ltb_lt in Hr | apply Z.ltb_ge in Hr]; lia.
Qed.

Lemma ring_index_mapping_witness :
  0 < 15 <= 16 - 1 /\
  scanID_of 16 15 = 15 /\ scanID_of 16 (15 - (16 - 1)) = 15.
Proof.
  assert (H : 0 < 15 <= 16 - 1) by lia.
  split; [exact H|].
  exact (proj1 (proj2 (ring_index_mapping 16 15)) H).
Defined.

(** ** The index range of an empty ring (lines 177-184) *)

Lemma starts_ends_leading_empty (ity : index_type) (k : nat)
    (rest : list (list PointXYZI)) (i : nat) :
  (i < k)%nat ->
  nth i (starts_from ity 0 (repeat [] k ++ rest)) 0 = store_index ity 0 /\
  nth i (ends_from ity 0 (repeat [] k ++ rest)) 0
    = store_index ity (2 ^ 64 - 1).
Proof.
  revert i. induction k as [|k IH]; intros i Hi; [lia|].
  simpl repeat. simpl app. cbn [starts_from ends_from length].
  change (size_t_wrap (0 + Z.of_nat 0)) with 0.
  destruct i as [|i].
  - split; reflexivity.
  - cbn [nth]. apply IH. lia.
Qed.

(** For a ring that received no point and that only empty rings precede,
    the counter is still 0 when its range is written: the start index is
    0 and the end index is the [size_t] value [0 - 1 = 2^64 - 1] converted
    to the element type, which is [-1] for an [int] and stays
    [2^64 - 1], above the start index, for a [size_t]. *)
Theorem leading_empty_ring_range (ity : index_type) (cloud0 : list PointXYZI)
    (k : nat) (rest : list (list PointXYZI)) (i : nat) :
  (i < k)%nat ->
  let a := assemble ity cloud0 (repeat [] k ++ rest) in
  nth i (asm_starts a) 0 = 0 /\
  nth i (asm_ends a) 0 = store_index ity (2 ^ 64 - 1) /\
  (ity = IndexInt -> nth i (asm_ends a) 0 = -1) /\
  (ity = IndexSizeT ->
   nth i (asm_ends a) 0 = 2 ^ 64 - 1 /\
   nth i (asm_starts a) 0 <= nth i (asm_ends a) 0).
Proof.
  intros Hi a. subst a.
  destruct (assemble_spec ity cloud0 (repeat [] k ++ rest)) as (_ & -> & ->).
  destruct (starts_ends_leading_empty ity k rest i Hi) as [-> ->].
  split; [now destruct ity|]. split; [reflexivity|].
  split; intros ->; [reflexivity|]. split; [reflexivity|].
  apply Z.leb_le. reflexivity.
Qed.

Lemma leading_empty_ring_range_witness :
  (0 < 2)%nat /\
  nth 0 (asm_ends (assemble IndexSizeT [] (repeat [] 2 ++ [[remap p_ahead]]))) 0
  = 2 ^ 64 - 1.
Proof.
  assert (H : (0 < 2)%nat) by lia.
  split; [exact H|].
  destruct (leading_empty_ring_range IndexSizeT [] 2 [[remap p_ahead]] 0 H)
    as (_ & _ & _ & Hs).
  exact (proj1 (Hs eq_refl)).
Defined.

(** ** The loop over the points, continued *)

Lemma push_scan_nth (scans scans' : list (list PointXYZI)) (k : nat)
    (q : PointXYZI) (i : nat) :
  push_scan scans k q = Some scans' ->
  nth i scans' [] =
    if (k =? i)%nat then nth i scans [] ++ [q] else nth i scans [].
Proof.
  revert k scans' i. induction scans as [|s rest IH]; intros k scans' i H;
    simpl in H.
  - discriminate.
  - destruct k as [|k].
    + injection H as <-. destruct i; reflexivity.
    + destruct (push_scan rest k q) as [rest'|] eqn:E; [|discriminate].
      injection H as <-. destruct i as [|i]; [reflexivity|].
      simpl. apply (IH k rest' i E).
Qed.

Section LoopProperties.

Context {IMUState : Type}.
Variable stamp : IMUState -> R.
Variable interpolate : IMUState -> IMUState -> fval -> IMUState.
Variable transformToStartIMU :
  IMUState -> IMUState -> PointXYZI -> fval -> PointXYZI.
Variable ity : index_type.

Local Abbreviation Reg := (ScanRegistration IMUState).
Local Abbreviation Loop := (LoopState IMUState).
Local Abbreviation point_step' :=
  (point_step stamp interpolate transformToStartIMU).
Local Abbreviation points_loop' :=
  (points_loop stamp interpolate transformToStartIMU).
Local Abbreviation compensate' :=
  (compensate stamp interpolate transformToStartIMU).
Local Abbreviation classify_sweep' :=
  (classify_sweep stamp interpolate transformToStartIMU).
Local Abbreviation process' :=
  (process stamp interpolate transformToStartIMU ity).
Local Abbreviation handle_messages' :=
  (handle_messages stamp interpolate transformToStartIMU ity).
Local Abbreviation processCloudMessage' :=
  (processCloudMessage stamp interpolate transformToStartIMU ity).

(** What an iteration that returns has done. *)
Lemma point_step_inv (reg : Reg) (scanTime : R) (s e : fval)
    (st st1 : Loop) (p : PointXYZ) :
  point_step' reg scanTime s e st p = Some st1 ->
  (classify reg s e (halfPassed st) p = Skipped /\ st1 = st) \/
  exists scanID ori relTime point',
    classify reg s e (halfPassed st) p
      = Classified scanID ori relTime (halfPassed st1) /\
    compensate' reg scanTime (imuIdx st) (imuCur st)
      (set_intensity (remap p) (fadd (f_of_Z scanID) relTime)) relTime
      = Some (imuIdx st1, imuCur st1, point') /\
    push_scan (laserCloudScans st) (Z.to_nat scanID) point'
      = Some (laserCloudScans st1).
Proof.
  unfold point_step. intros H.
  destruct (classify reg s e (halfPassed st) p) as [| |id ori rt hp'];
    [left | discriminate | right].
  - injection H as <-. auto.
  - destruct (compensate' reg scanTime (imuIdx st) (imuCur st) _ rt)
      as [[[idx' cur'] q']|] eqn:Hcomp; [|discriminate].
    destruct (push_scan (laserCloudScans st) (Z.to_nat id) q')
      as [scans'|] eqn:Hpush; [|discriminate].
    injection H as <-. exists id, ori, rt, q'. simpl. auto.
Qed.

Lemma points_loop_invariant (I : Loop -> Prop) (reg : Reg) (scanTime : R)
    (s e : fval) (points : list PointXYZ) (st st' : Loop) :
  (forall st0 st1 p, In p points -> I st0 ->
     point_step' reg scanTime s e st0 p = Some st1 -> I st1) ->
  I st ->
  points_loop' reg scanTime s e st points = Some st' ->
  I st'.
Proof.
  revert st. induction points as [|p rest IH]; intros st Hstep HI Hloop;
    simpl in Hloop.
  - now injection Hloop as <-.
  - destruct (point_step' reg scanTime s e st p) as [st1|] eqn:E;
      [|discriminate].
    apply (IH st1); [| |assumption].
    + intros st0 st2 q Hq. apply Hstep. now right.
    + apply (Hstep st st1 p); [now left | assumption | assumption].
Qed.

Lemma compensate_intensity (reg : Reg) (scanTime : R) (idx idx' : Z)
    (cur cur' : IMUState) (point point' : PointXYZI) (relTime : fval) :
  keeps_intensity transformToStartIMU ->
  compensate' reg scanTime idx cur point relTime = Some (idx', cur', point') ->
  intensity point' = intensity point.
Proof.
  intros Htr H. unfold compensate in H.
  destruct (0 <? Z.of_nat (length (_imuHistory reg))).
  - destruct (select_imu stamp (_imuHistory reg) scanTime relTime _);
      [|discriminate].
    injection H as _ _ <-. apply Htr.
  - now injection H as _ _ <-.
Qed.

(** *** The cursor search (lines 158-168) *)

Lemma advance_postcondition (history : list IMUState) (scanTime : R)
    (relTime : fval) (fuel : nat) (idx : Z) :
  Z.of_nat (length history) < 2 ^ 64 ->
  0 <= idx < Z.of_nat (length history) ->
  Z.of_nat (length history) - 1 - idx < Z.of_nat fuel ->
  let r := advance_imuIdx_fuel stamp fuel history scanTime relTime idx in
  idx <= r < Z.of_nat (length history) /\
  (r = Z.of_nat (length history) - 1 \/
   exists s, vec_at history r = Some s /\
             after_stamp stamp scanTime relTime s = false) /\
  (forall j, idx <= j < r ->
     exists s, vec_at history j = Some s /\
               after_stamp stamp scanTime relTime s = true).
Proof.
  intros Hl. revert idx. induction fuel as [|fuel IH]; intros idx Hi Hf;
    [lia|].
  cbn [advance_imuIdx_fuel].
  destruct (advance_cond stamp history scanTime relTime idx) eqn:Hc.
  - unfold advance_cond in Hc. apply andb_true_iff in Hc.
    destruct Hc as [Hlt Hafter]. apply Z.ltb_lt in Hlt.
    rewrite size_t_wrap_small in Hlt by lia.
    rewrite size_t_wrap_small by lia.
    destruct (IH (idx + 1)) as (Hb & Hstop & Hskip); [lia | lia |].
    cbv zeta. split; [lia|]. split; [exact Hstop|].
    intros j Hj. destruct (Z.eq_dec j idx) as [-> | Hne].
    + destruct (vec_at history idx) as [s0|]; [|discriminate]. eauto.
    + apply Hskip. lia.
  - cbv zeta. split; [lia|]. split; [|intros j Hj; lia].
    unfold advance_cond in Hc. apply andb_false_iff in Hc.
    destruct Hc as [Hge | Hafter].
    + apply Z.ltb_ge in Hge. rewrite size_t_wrap_small in Hge by lia.
      left. lia.
    + destruct (vec_at_defined history idx Hi) as [s0 Hs0].
      rewrite Hs0 in Hafter. right. eauto.
Qed.

(** The search of line 158 starts at the cursor and stops at the first
    entry whose stamp is not before the time of the point, or at the last
    entry of the history: the cursor does not move backward, it stays
    inside the history, and every entry it passed is before the point. *)
Theorem cursor_search_stops (history : list IMUState) (scanTime : R)
    (relTime : fval) (idx : Z) :
  Z.of_nat (length history) < 2 ^ 64 ->
  0 <= idx < Z.of_nat (length history) ->
  let r := advance_imuIdx stamp history scanTime relTime idx in
  idx <= r < Z.of_nat (length history) /\
  (r = Z.of_nat (length history) - 1 \/
   exists s, vec_at history r = Some s /\
             after_stamp stamp scanTime relTime s = false) /\
  (forall j, idx <= j < r ->
     exists s, vec_at history j = Some s /\
               after_stamp stamp scanTime relTime s = true).
Proof.
  intros Hl Hi. unfold advance_imuIdx.
  apply advance_postcondition; [assumption | assumption | lia].
Qed.

(** When the search has moved the cursor for this very point, the state
    used is the last entry of the history (the point is later than all of
    it), or the state interpolated between the two entries that bracket
    the time of the point.  The ratio line 165 stores is the [float]
    nearest to a quotient that lies in [[0, 1)]; the [float] itself can
    be 1. *)
Theorem advanced_cursor_brackets (narrow : R -> fval)
    (history : list IMUState) (scanTime : R) (relTime : fval) (idx : Z) :
  Z.of_nat (length history) < 2 ^ 64 ->
  0 <= idx < Z.of_nat (length history) ->
  idx < advance_imuIdx stamp history scanTime relTime idx ->
  let r := advance_imuIdx stamp history scanTime relTime idx in
  (exists cur,
     select_imu32 narrow stamp history scanTime relTime r
       = Some (Direct cur) /\
     vec_at history r = Some cur /\
     r = Z.of_nat (length history) - 1 /\
     after_stamp stamp scanTime relTime cur = true) \/
  (exists cur prev (rt q : R),
     relTime = FFin rt /\
     select_imu32 narrow stamp history scanTime relTime r
       = Some (Interpolated cur prev (narrow q)) /\
     vec_at history r = Some cur /\ vec_at history (r - 1) = Some prev /\
     (stamp prev < scanTime + rt <= stamp cur)%R /\
     q = ((stamp cur - (scanTime + rt)) / (stamp cur - stamp prev))%R /\
     (0 <= q < 1)%R).
Proof.
  intros Hl Hi Hadv r.
  assert (Hpost := advance_postcondition history scanTime relTime
                     (length history) idx Hl Hi).
  fold (advance_imuIdx stamp history scanTime relTime idx) in Hpost.
  fold r in Hpost. destruct Hpost as (Hb & Hstop & Hskip); [lia|].
  fold r in Hadv.
  destruct (vec_at_defined history r) as [cur Hcur]; [lia|].
  destruct (Hskip (r - 1)) as (prev & Hprev & Haprev); [lia|].
  unfold select_imu32, select_imu. rewrite Hcur.
  replace (r =? 0) with false by (symmetry; apply Z.eqb_neq; lia).
  rewrite size_t_wrap_small by lia. rewrite Hprev. cbn [orb].
  destruct (after_stamp stamp scanTime relTime cur) eqn:Hacur.
  - left. exists cur.
    split; [reflexivity|]. split; [reflexivity|].
    split; [|exact Hacur].
    destruct Hstop as [Hlast | (s0 & Hs0 & Hfalse)]; [exact Hlast|].
    congruence.
  - right. unfold after_stamp, fgt in Hacur, Haprev.
    destruct relTime as [|n|rt]; cbn [fadd flt] in Hacur, Haprev.
    + discriminate.
    + destruct n; discriminate.
    + apply Rltb_false in Hacur. apply Rltb_true in Haprev.
      assert (Hden : (0 < stamp cur - stamp prev)%R) by lra.
      exists cur, prev, rt,
        ((stamp cur - (scanTime + rt)) / (stamp cur - stamp prev))%R.
      split; [reflexivity|]. split.
      { unfold fsub. cbn [fopp fadd]. unfold fdiv.
        rewrite (proj2 (Req_zero_false _)) by lra.
        cbn [option_map narrow_ratio]. do 3 f_equal. lra. }
      split; [reflexivity|]. split; [reflexivity|].
      split; [lra|]. split; [reflexivity|].
      split.
      * apply Rmult_le_pos; [lra|]. left. now apply Rinv_0_lt_compat.
      * apply Rmult_lt_reg_r with (stamp cur - stamp prev)%R; [assumption|].
        unfold Rdiv. rewrite Rmult_assoc, Rinv_l by lra. lra.
Qed.

(** *** What the loop never undoes (lines 99-174) *)

Lemma classify_keeps_flag (reg : Reg) (s e : fval) (p : PointXYZ)
    (scanID : Z) (ori relTime : fval) (hp' : bool) :
  classify reg s e true p = Classified scanID ori relTime hp' -> hp' = true.
Proof.
  unfold classify. intros H.
  destruct (has_nonfinite (remap p)); [discriminate|].
  destruct (near_zero (remap p)); [discriminate|].
  destruct (roundedAngle (vertical_angle (remap p))); [|discriminate].
  destruct (scanID_out_of_range _ _); [discriminate|].
  cbn in H. now injection H as _ _ _ <-.
Qed.

Lemma compensate_cursor (reg : Reg) (scanTime : R) (idx idx' : Z)
    (cur cur' : IMUState) (point point' : PointXYZI) (relTime : fval) :
  Z.of_nat (length (_imuHistory reg)) < 2 ^ 64 ->
  cursor_ok (_imuHistory reg) idx = true ->
  compensate' reg scanTime idx cur point relTime = Some (idx', cur', point') ->
  idx <= idx' /\ cursor_ok (_imuHistory reg) idx' = true.
Proof.
  intros Hl Hc H. unfold compensate in H.
  destruct (0 <? Z.of_nat (length (_imuHistory reg))) eqn:Hn.
  - apply Z.ltb_lt in Hn.
    pose proof (cursor_ok_nonempty _ _ Hc Hn) as Hi.
    pose proof (advance_fuel_bounds stamp (_imuHistory reg) scanTime relTime
                  (length (_imuHistory reg)) idx Hl Hi) as Hb.
    fold (advance_imuIdx stamp (_imuHistory reg) scanTime relTime idx) in Hb.
    destruct (select_imu stamp (_imuHistory reg) scanTime relTime _);
      [|discriminate].
    injection H as <- _ _. split; [lia|]. apply cursor_ok_intro. lia.
  - injection H as <- _ _. split; [lia | assumption].
Qed.

(** Across the loop over the points the [halfPassed] flag is never
    lowered, the cursor into the history never moves backward and stays
    usable, the number of ring buffers does not change, and every ring
    buffer only grows at its end. *)
Theorem loop_never_goes_back (reg : Reg) (scanTime : R) (s e : fval)
    (points : list PointXYZ) (st st' : Loop) :
  Z.of_nat (length (_imuHistory reg)) < 2 ^ 64 ->
  cursor_ok (_imuHistory reg) (imuIdx st) = true ->
  points_loop' reg scanTime s e st points = Some st' ->
  (halfPassed st = true -> halfPassed st' = true) /\
  imuIdx st <= imuIdx st' /\
  cursor_ok (_imuHistory reg) (imuIdx st') = true /\
  length (laserCloudScans st') = length (laserCloudScans st) /\
  forall i, exists added,
    nth i (laserCloudScans st') [] = nth i (laserCloudScans st) [] ++ added.
Proof.
  intros Hl Hc Hloop.
  apply (points_loop_invariant
           (fun st1 =>
              (halfPassed st = true -> halfPassed st1 = true) /\
              imuIdx st <= imuIdx st1 /\
              cursor_ok (_imuHistory reg) (imuIdx st1) = true /\
              length (laserCloudScans st1) = length (laserCloudScans st) /\
              forall i, exists added,
                nth i (laserCloudScans st1) []
                = nth i (laserCloudScans st) [] ++ added)
           reg scanTime s e points st st'); [| |exact Hloop].
  - intros st0 st1 p _ (Hhp & Hidx & Hcur & Hlen & Hgrow) Hstep.
    destruct (point_step_inv reg scanTime s e st0 st1 p Hstep)
      as [[_ ->] | (id & ori & rt & q & Hcl & Hcomp & Hpush)];
      [repeat split; assumption|].
    destruct (compensate_cursor reg scanTime _ _ _ _ _ _ _ Hl Hcur Hcomp)
      as [Hle Hcur1].
    split; [|split; [lia | split; [exact Hcur1 | split]]].
    + intros Hst. specialize (Hhp Hst). rewrite Hhp in Hcl.
      apply (classify_keeps_flag _ _ _ _ _ _ _ _ Hcl).
    + rewrite (push_scan_length _ _ _ _ Hpush). exact Hlen.
    + intros i. destruct (Hgrow i) as [added Ha].
      rewrite (push_scan_nth _ _ _ _ i Hpush).
      destruct (Z.to_nat id =? i)%nat.
      * exists (added ++ [q]). now rewrite Ha, app_assoc.
      * exists added. exact Ha.
  - split; [auto|]. split; [lia|]. split; [exact Hc|]. split; [reflexivity|].
    intros i. exists []. now rewrite app_nil_r.
Qed.

(** *** The ring buffers without compensation (lines 105-184) *)

Lemma ring_points_cons (i : nat) (scanID : Z) (q : PointXYZI)
    (trace : list (Z * PointXYZI)) :
  ring_points i ((scanID, q) :: trace) =
    if (Z.to_nat scanID =? i)%nat
    then q :: ring_points i trace else ring_points i trace.
Proof.
  unfold ring_points. simpl. now destruct (Z.to_nat scanID =? i)%nat.
Qed.

Lemma classified_trace_reset (reg : Reg) (s e : fval) (hp : bool)
    (points : list PointXYZ) :
  classified_trace (reset reg) s e hp points
  = classified_trace reg s e hp points.
Proof.
  revert hp. induction points as [|p rest IH]; intros hp; simpl.
  - reflexivity.
  - change (classify (reset reg) s e hp p) with (classify reg s e hp p).
    destruct (classify reg s e hp p); now rewrite ?IH.
Qed.

Lemma points_loop_trace (reg : Reg) (scanTime : R) (s e : fval)
    (points : list PointXYZ) (st st' : Loop) :
  _imuHistory reg = [] ->
  points_loop' reg scanTime s e st points = Some st' ->
  forall i,
    nth i (laserCloudScans st') [] =
    nth i (laserCloudScans st) []
    ++ ring_points i (classified_trace reg s e (halfPassed st) points).
Proof.
  intros Hh. revert st.
  induction points as [|p rest IH]; intros st Hloop i; simpl in Hloop.
  - injection Hloop as <-. simpl. now rewrite app_nil_r.
  - destruct (point_step' reg scanTime s e st p) as [st1|] eqn:Hstep;
      [|discriminate].
    rewrite (IH st1 Hloop i). cbn [classified_trace].
    destruct (point_step_inv reg scanTime s e st st1 p Hstep)
      as [[Hcl ->] | (id & ori & rt & q & Hcl & Hcomp & Hpush)];
      rewrite Hcl; [reflexivity|].
    rewrite (compensate_empty_history stamp interpolate transformToStartIMU
               reg _ _ _ _ _ Hh) in Hcomp.
    injection Hcomp as _ _ <-.
    rewrite (push_scan_nth _ _ _ _ i Hpush), ring_points_cons.
    destruct (Z.to_nat id =? i)%nat; [|reflexivity].
    now rewrite <- app_assoc.
Qed.

(** Without IMU history the ring buffers are a stable partition of the
    classified points: buffer [i] holds, in input order and with their
    remapped coordinates and packed intensity, exactly the points
    classified into ring [i], and the assembled cloud is the
    concatenation of these lists in ascending ring order. *)
Theorem rings_partition_classified_points (reg : Reg)
    (points : list PointXYZ) (scanTime : R) :
  well_formed reg points = true ->
  _imuHistory reg = [] ->
  exists s e st reg',
    sweep_orientation points = Some (s, e) /\
    classify_sweep' reg points scanTime = Some st /\
    process' reg points scanTime = Some reg' /\
    let trace := classified_trace reg s e false points in
    (forall i, nth i (laserCloudScans st) [] =
               if (i <? Z.to_nat (_nScans reg))%nat
               then ring_points i trace else []) /\
    _laserCloud reg' =
      concat (map (fun i => ring_points i trace)
                  (seq 0 (Z.to_nat (_nScans reg)))).
Proof.
  intros Hwf Hh.
  destruct (process_spec stamp interpolate transformToStartIMU ity reg points
              scanTime Hwf)
    as (st & reg' & Hst & Hp & Hlen & _ & Hc & _).
  pose proof Hst as Hst'. unfold classify_sweep in Hst'.
  destruct (sweep_orientation points) as [[s e]|]; [|discriminate].
  exists s, e, st, reg'.
  split; [reflexivity|]. split; [exact Hst|]. split; [exact Hp|].
  assert (Hnth : forall i,
             nth i (laserCloudScans st) [] =
             if (i <? Z.to_nat (_nScans reg))%nat
             then ring_points i (classified_trace reg s e false points)
             else []).
  { intros i.
    rewrite (points_loop_trace (reset reg) scanTime s e points _ st Hh Hst' i).
    cbn [initial_loop laserCloudScans halfPassed].
    rewrite classified_trace_reset.
    change (_nScans (reset reg)) with (_nScans reg).
    destruct (i <? Z.to_nat (_nScans reg))%nat eqn:Hi.
    - apply Nat.ltb_lt in Hi.
      now rewrite nth_repeat.
    - apply Nat.ltb_ge in Hi.
      rewrite nth_overflow by (rewrite repeat_length; exact Hi).
      cbn [app].
      assert (Hover : nth i (laserCloudScans st) [] = [])
        by (apply nth_overflow; lia).
      rewrite (points_loop_trace (reset reg) scanTime s e points _ st Hh Hst' i)
        in Hover.
      cbn [initial_loop laserCloudScans halfPassed] in Hover.
      rewrite classified_trace_reset in Hover.
      change (_nScans (reset reg)) with (_nScans reg) in Hover.
      rewrite nth_overflow in Hover by (rewrite repeat_length; exact Hi).
      exact Hover. }
  cbv zeta. split; [exact Hnth|].
  rewrite Hc. f_equal.
  apply (nth_ext _ _ [] []).
  - now rewrite length_map, length_seq.
  - intros i Hi. rewrite Hlen in Hi.
    rewrite Hnth.
    replace (i <? Z.to_nat (_nScans reg))%nat with true
      by (symmetry; apply Nat.ltb_lt; exact Hi).
    rewrite (nth_indep _ []
               (ring_points 0 (classified_trace reg s e false points)))
      by (now rewrite length_map, length_seq).
    rewrite (map_nth (fun i => ring_points i _) _ 0%nat).
    now rewrite seq_nth.
Qed.

(** *** Compensation and the packed scalar (lines 152-173) *)

Lemma compensate_shape (reg : Reg) (scanTime : R) (idx idx' : Z)
    (cur cur' : IMUState) (point point' : PointXYZI) (relTime : fval) :
  compensate' reg scanTime idx cur point relTime = Some (idx', cur', point') ->
  compensated_from transformToStartIMU point point'.
Proof.
  intros H. unfold compensate in H.
  destruct (0 <? Z.of_nat (length (_imuHistory reg))).
  - destruct (select_imu stamp (_imuHistory reg) scanTime relTime _)
      as [src|]; [|discriminate].
    injection H as _ _ <-. right.
    now exists (_imuStart reg), (imu_of_source interpolate src), relTime.
  - injection H as _ _ <-. now left.
Qed.

Lemma compensated_intensity (point q : PointXYZI) :
  keeps_intensity transformToStartIMU ->
  compensated_from transformToStartIMU point q ->
  intensity q = intensity point.
Proof.
  intros Htr [-> | (imuStart & cur & rt & ->)]; [reflexivity | apply Htr].
Qed.

(** Whatever the history, the loop appends to ring buffer [i] one point
    for each point classified into ring [i], in input order: that
    classified point, or what [transformToStartIMU] made of it. *)
Lemma points_loop_compensated (reg : Reg) (scanTime : R) (s e : fval)
    (points : list PointXYZ) (st st' : Loop) :
  points_loop' reg scanTime s e st points = Some st' ->
  forall i, exists added,
    nth i (laserCloudScans st') [] = nth i (laserCloudScans st) [] ++ added /\
    Forall2 (compensated_from transformToStartIMU)
      (ring_points i (classified_trace reg s e (halfPassed st) points)) added.
Proof.
  revert st.
  induction points as [|p rest IH]; intros st Hloop i; simpl in Hloop.
  - injection Hloop as <-. exists []. simpl. rewrite app_nil_r.
    split; [reflexivity | constructor].
  - destruct (point_step' reg scanTime s e st p) as [st1|] eqn:Hstep;
      [|discriminate].
    destruct (IH st1 Hloop i) as (added & Hnth & HF).
    cbn [classified_trace].
    destruct (point_step_inv reg scanTime s e st st1 p Hstep)
      as [[Hcl ->] | (id & ori & rt & q & Hcl & Hcomp & Hpush)];
      rewrite Hcl.
    + exists added. split; assumption.
    + rewrite (push_scan_nth _ _ _ _ i Hpush) in Hnth.
      rewrite ring_points_cons.
      destruct (Z.to_nat id =? i)%nat.
      * exists (q :: added). rewrite <- app_assoc in Hnth.
        split; [exact Hnth|]. constructor; [|exact HF].
        exact (compensate_shape reg scanTime _ _ _ _ _ _ _ Hcomp).
      * exists added. split; assumption.
Qed.

Lemma classified_entry_cons (reg : Reg) (s e : fval) (p : PointXYZ)
    (points : list PointXYZ) (t : Z * PointXYZI) :
  classified_entry reg s e points t -> classified_entry reg s e (p :: points) t.
Proof.
  intros (p0 & hp & ori & rt & hp' & Hin & H).
  exists p0, hp, ori, rt, hp'. split; [now right | exact H].
Qed.

Lemma classified_trace_entries (reg : Reg) (s e : fval) (hp : bool)
    (points : list PointXYZ) :
  Forall (classified_entry reg s e points) (classified_trace reg s e hp points).
Proof.
  revert hp. induction points as [|p rest IH]; intros hp; simpl.
  - constructor.
  - destruct (classify reg s e hp p) as [| |id ori rt hp'] eqn:Hcl.
    + eapply Forall_impl; [|apply IH]. intros t. apply classified_entry_cons.
    + eapply Forall_impl; [|apply IH]. intros t. apply classified_entry_cons.
    + constructor.
      * exists p, hp, ori, rt, hp'. simpl.
        split; [now left|]. split; [exact Hcl|]. repeat split; reflexivity.
      * eapply Forall_impl; [|apply IH]. intros t. apply classified_entry_cons.
Qed.

Lemma Forall2_map_eq {A B C : Type} (f : A -> C) (g : B -> C)
    (Q : A -> B -> Prop) (l : list A) (l' : list B) :
  (forall a b, Q a b -> g b = f a) ->
  Forall2 Q l l' -> map g l' = map f l.
Proof.
  intros HQ H. induction H as [|a b l l' Hab _ IH]; simpl; [reflexivity|].
  now rewrite (HQ a b Hab), IH.
Qed.

(** C8.  [process] raises no error on a well-formed input, with or
    without history, and its ring buffers are read off the trace of the
    classification, in which every entry carries the remapped coordinates
    of its own input point and the packed scalar [scanID + relTime] of
    that point's classification.  With an empty history the compensation
    is skipped for every point: the cursor and [_imuCur] are not touched
    and ring buffer [i] holds exactly the entries of ring [i], so each
    output point has its raw remapped coordinates.  With any history,
    each stored point is its trace entry or what [transformToStartIMU]
    returned for that entry, position by position: [process] itself
    writes nothing to a point after line 154, so as soon as the transform
    leaves the intensity alone every stored scalar is the one the
    classification packed. *)
Theorem compensation_keeps_classified_scalar (reg : Reg)
    (points : list PointXYZ) (scanTime : R) :
  well_formed reg points = true ->
  exists s e st reg',
    sweep_orientation points = Some (s, e) /\
    classify_sweep' reg points scanTime = Some st /\
    process' reg points scanTime = Some reg' /\
    _laserCloud reg' = concat (laserCloudScans st) /\
    let trace := classified_trace reg s e false points in
    Forall (classified_entry reg s e points) trace /\
    (_imuHistory reg = [] ->
       imuIdx st = _imuStartIdx reg /\ imuCur st = _imuCur reg /\
       _imuCur reg' = _imuCur reg /\
       forall i, (i < Z.to_nat (_nScans reg))%nat ->
         nth i (laserCloudScans st) [] = ring_points i trace) /\
    (forall i, (i < Z.to_nat (_nScans reg))%nat ->
       Forall2 (compensated_from transformToStartIMU)
         (ring_points i trace) (nth i (laserCloudScans st) [])) /\
    (keeps_intensity transformToStartIMU ->
       forall i, (i < Z.to_nat (_nScans reg))%nat ->
         map intensity (nth i (laserCloudScans st) [])
         = map intensity (ring_points i trace)).
Proof.
  intros Hwf.
  destruct (process_spec stamp interpolate transformToStartIMU ity reg points
              scanTime Hwf)
    as (st & reg' & Hst & Hp & Hlen & _ & Hc & _ & _ & Hcur).
  pose proof Hst as Hst'. unfold classify_sweep in Hst'.
  destruct (sweep_orientation points) as [[s e]|]; [|discriminate].
  exists s, e, st, reg'.
  split; [reflexivity|]. split; [exact Hst|]. split; [exact Hp|].
  split; [exact Hc|]. cbv zeta.
  split; [apply classified_trace_entries|].
  assert (HF : forall i, (i < Z.to_nat (_nScans reg))%nat ->
             Forall2 (compensated_from transformToStartIMU)
               (ring_points i (classified_trace reg s e false points))
               (nth i (laserCloudScans st) [])).
  { intros i Hi.
    destruct (points_loop_compensated (reset reg) scanTime s e points _ st
                Hst' i) as (added & Hnth & HF).
    cbn [initial_loop laserCloudScans halfPassed] in Hnth, HF.
    change (_nScans (reset reg)) with (_nScans reg) in Hnth.
    rewrite nth_repeat in Hnth. cbn [app] in Hnth.
    rewrite classified_trace_reset in HF. now rewrite Hnth. }
  split; [|split; [exact HF|]].
  - intros Hh.
    destruct (points_loop_uncompensated stamp interpolate transformToStartIMU
                (reset reg) scanTime s e (fun _ => True) points
                (initial_loop (reset reg)) st Hh)
      as (_ & Hidx & Hcur0); [auto | exact Hst' | |].
    { cbn [initial_loop laserCloudScans].
      clear. induction (Z.to_nat (_nScans (reset reg))); simpl;
        constructor; auto. }
    cbn [initial_loop imuIdx imuCur] in Hidx, Hcur0.
    split; [exact Hidx|]. split; [exact Hcur0|].
    split; [now rewrite Hcur|].
    intros i Hi.
    rewrite (points_loop_trace (reset reg) scanTime s e points _ st Hh Hst' i).
    cbn [initial_loop laserCloudScans halfPassed].
    change (_nScans (reset reg)) with (_nScans reg).
    rewrite nth_repeat. cbn [app]. now rewrite classified_trace_reset.
  - intros Htr i Hi.
    apply (Forall2_map_eq intensity intensity
             (compensated_from transformToStartIMU)).
    + intros a b Hab. now apply compensated_intensity.
    + now apply HF.
Qed.

(** *** A first point without a direction (lines 90, 131-154) *)

Lemma flt_nan_r (a : fval) : flt a FNaN = false.
Proof. now destruct a. Qed.

Lemma fadd_nan_r (a : fval) : fadd a FNaN = FNaN.
Proof. now destruct a. Qed.

Lemma fmul_nan_r (a : fval) : fmul a FNaN = FNaN.
Proof. now destruct a. Qed.

Lemma classify_nan_start (reg : Reg) (e : fval) (p : PointXYZ)
    (scanID : Z) (ori relTime : fval) (hp' : bool) :
  classify reg FNaN e false p = Classified scanID ori relTime hp' ->
  relTime = FNaN /\ hp' = false.
Proof.
  unfold classify. intros H.
  destruct (has_nonfinite (remap p)); [discriminate|].
  destruct (near_zero (remap p)); [discriminate|].
  destruct (roundedAngle (vertical_angle (remap p))); [|discriminate].
  destruct (scanID_out_of_range _ _); [discriminate|].
  unfold unwrap_ori, relTime_of, fgt, fsub in H.
  cbn [negb fadd fopp] in H.
  rewrite !flt_nan_r in H. cbn [flt] in H.
  rewrite !fadd_nan_r in H. cbn [flt] in H.
  rewrite fmul_nan_r in H. cbn [fdiv] in H.
  now injection H as _ _ <- <-.
Qed.

(** The sweep is not rejected when its first point has a NaN in [x] or
    [y]: [startOri] is then NaN, every comparison of the unwrap fails, the
    [halfPassed] flag is never raised, and every point that is classified
    reaches the output with a NaN relative time and hence a NaN
    intensity. *)
Theorem nan_first_point_poisons_times (reg : Reg) (points : list PointXYZ)
    (scanTime : R) (first : PointXYZ) :
  keeps_intensity transformToStartIMU ->
  well_formed reg points = true ->
  nth_error points 0 = Some first ->
  in_x first = FNaN \/ in_y first = FNaN ->
  exists e st reg',
    sweep_orientation points = Some (FNaN, e) /\
    classify_sweep' reg points scanTime = Some st /\
    process' reg points scanTime = Some reg' /\
    halfPassed st = false /\
    length (_laserCloud reg') =
      length (filter (accepted (_nScans reg)) points) /\
    Forall (fun q => intensity q = FNaN) (_laserCloud reg').
Proof.
  intros Htr Hwf H0 Hnan.
  destruct (process_spec stamp interpolate transformToStartIMU ity reg points
              scanTime Hwf)
    as (st & reg' & Hst & Hp & _ & Hcount & Hc & _).
  destruct (well_formed_inv reg points Hwf) as (_ & _ & _ & Hpts).
  destruct (nth_error points (length points - 1)) as [last|] eqn:Hl;
    [|apply nth_error_None in Hl; lia].
  assert (Ho : sweep_orientation points
               = Some (FNaN,
                       correct_endOri FNaN
                         (fadd (fopp (fatan2 (in_y last) (in_x last)))
                               two_PI))).
  { rewrite (sweep_orientation_defined points first last);
      [|lia|exact H0|exact Hl].
    assert (Hs : fopp (fatan2 (in_y first) (in_x first)) = FNaN).
    { destruct Hnan as [-> | ->]; [now destruct (in_y first) | reflexivity]. }
    now rewrite Hs. }
  eexists _, st, reg'. split; [exact Ho|].
  split; [exact Hst|]. split; [exact Hp|].
  unfold classify_sweep in Hst. rewrite Ho in Hst.
  assert (HI : halfPassed st = false /\
               Forall (Forall (fun q => intensity q = FNaN))
                      (laserCloudScans st)).
  { apply (points_loop_invariant
             (fun st1 =>
                halfPassed st1 = false /\
                Forall (Forall (fun q => intensity q = FNaN))
                       (laserCloudScans st1))
             (reset reg) scanTime FNaN
             (correct_endOri FNaN
                (fadd (fopp (fatan2 (in_y last) (in_x last))) two_PI))
             points (initial_loop (reset reg)) st); [| |exact Hst].
    - intros st0 st1 p _ [Hhp HF] Hstep.
      destruct (point_step_inv (reset reg) scanTime _ _ st0 st1 p Hstep)
        as [[_ ->] | (id & ori & rt & q' & Hcl & Hcomp & Hpush)];
        [now split|].
      rewrite Hhp in Hcl.
      destruct (classify_nan_start _ _ _ _ _ _ _ Hcl) as [-> Hhp1].
      split; [exact Hhp1|].
      eapply push_scan_Forall; [exact Hpush | exact HF |].
      rewrite (compensate_intensity (reset reg) scanTime _ _ _ _ _ _ _
                 Htr Hcomp).
      cbn [intensity set_intensity]. apply fadd_nan_r.
    - split; [reflexivity|]. simpl.
      induction (Z.to_nat (_nScans reg)); simpl; constructor; auto. }
  destruct HI as [Hhp HF].
  split; [exact Hhp|]. split; [now rewrite Hc, Hcount|].
  rewrite Hc. apply Forall_concat. exact HF.
Qed.

(** *** The handler once the start-up delay is over (lines 65-77) *)

Lemma process_keeps_delay (reg reg' : Reg) (points : list PointXYZ)
    (scanTime : R) :
  process' reg points scanTime = Some reg' ->
  _systemDelay reg' = _systemDelay reg.
Proof.
  unfold process. destruct (classify_sweep' reg points scanTime);
    [|discriminate].
  now intros [= <-].
Qed.

(** Once [_systemDelay] has reached 0 the handler never delays again:
    [process] leaves the counter alone, so every further message is
    handed to [process], as long as no call has undefined behaviour. *)
Theorem handler_processes_after_delay (reg : Reg)
    (msgs : list CloudMessage) :
  _systemDelay reg <= 0 ->
  (exists k,
     fst (handle_messages' reg msgs)
     = map (fun m => Processed (fst m) (snd m)) (firstn k msgs)) /\
  (forall final, snd (handle_messages' reg msgs) = Some final ->
     fst (handle_messages' reg msgs)
     = map (fun m => Processed (fst m) (snd m)) msgs /\
     _systemDelay final = _systemDelay reg).
Proof.
  revert reg. induction msgs as [|m rest IH]; intros reg Hd.
  - split; [exists 0%nat; reflexivity|].
    simpl. intros final [= <-]. auto.
  - cbn [handle_messages]. unfold processCloudMessage.
    replace (_systemDelay reg >? 0) with false
      by (symmetry; rewrite Z.gtb_ltb; apply Z.ltb_ge; exact Hd).
    destruct (process' reg (fst m) (snd m)) as [reg1|] eqn:Hp.
    + pose proof (process_keeps_delay _ _ _ _ Hp) as Hk.
      destruct (IH reg1) as [[k Hk1] Hfin]; [lia|].
      destruct (handle_messages' reg1 rest) as [hs final0] eqn:E.
      cbn [fst snd] in *. split.
      * exists (S k). cbn [firstn map]. now rewrite Hk1.
      * intros final Hf. destruct (Hfin final Hf) as [-> Hd'].
        split; [reflexivity | congruence].
    + cbn [fst snd]. split; [exists 1%nat; reflexivity | discriminate].
Qed.

(** *** Edge cases of the compensation (lines 157-168) *)

Lemma advance_stays_when_not_after (history : list IMUState) (scanTime : R)
    (relTime : fval) (idx : Z) (cur : IMUState) :
  vec_at history idx = Some cur ->
  after_stamp stamp scanTime relTime cur = false ->
  advance_imuIdx stamp history scanTime relTime idx = idx.
Proof.
  intros Hcur Ha. unfold advance_imuIdx.
  destruct history as [|h rest]; [reflexivity|].
  simpl length. cbn [advance_imuIdx_fuel].
  unfold advance_cond. rewrite Hcur, Ha. now rewrite andb_false_r.
Qed.

(** The cursor only moves forward.  A point that is processed when the
    cursor is already past it, at an entry [cur] whose predecessor
    [prev] has an earlier stamp and is not earlier than the point, leaves
    the cursor where it is and is compensated with a state extrapolated
    beyond [prev]: the ratio line 165 stores is the [float] nearest to a
    quotient that is at least 1. *)
Theorem stale_cursor_extrapolates (narrow : R -> fval)
    (history : list IMUState) (scanTime : R)
    (rt : R) (idx : Z) (cur prev : IMUState) :
  Z.of_nat (length history) < 2 ^ 64 ->
  0 < idx ->
  vec_at history idx = Some cur ->
  vec_at history (idx - 1) = Some prev ->
  (stamp prev < stamp cur)%R ->
  (scanTime + rt <= stamp prev)%R ->
  advance_imuIdx stamp history scanTime (FFin rt) idx = idx /\
  exists q : R,
    select_imu32 narrow stamp history scanTime (FFin rt) idx
      = Some (Interpolated cur prev (narrow q)) /\
    q = ((stamp cur - (scanTime + rt)) / (stamp cur - stamp prev))%R /\
    (1 <= q)%R.
Proof.
  intros Hl Hidx Hcur Hprev Hord Hbefore.
  assert (Ha : after_stamp stamp scanTime (FFin rt) cur = false).
  { unfold after_stamp, fgt. cbn [fadd flt]. apply Rltb_false. lra. }
  split; [now apply (advance_stays_when_not_after _ _ _ _ cur)|].
  assert (Hb : idx < Z.of_nat (length history)).
  { unfold vec_at in Hcur.
    destruct ((0 <=? idx) && (idx <? Z.of_nat (length history))) eqn:E;
      [|discriminate].
    apply andb_true_iff in E. destruct E as [_ E]. now apply Z.ltb_lt in E. }
  exists ((stamp cur - (scanTime + rt)) / (stamp cur - stamp prev))%R.
  split; [|split; [reflexivity|]].
  - unfold select_imu32, select_imu. rewrite Hcur, Ha.
    replace (idx =? 0) with false by (symmetry; apply Z.eqb_neq; lia).
    rewrite size_t_wrap_small by lia. rewrite Hprev. cbn [orb].
    unfold fsub. cbn [fopp fadd]. unfold fdiv.
    rewrite (proj2 (Req_zero_false _)) by lra.
    cbn [option_map narrow_ratio]. do 3 f_equal. lra.
  - apply Rmult_le_reg_r with (stamp cur - stamp prev)%R; [lra|].
    unfold Rdiv. rewrite Rmult_assoc, Rinv_l by lra. lra.
Qed.

(** With a history of a single entry the search loop never runs and the
    test [imuIdx == 0] always holds: every classified point is
    compensated with that entry itself, whatever its time. *)
Theorem single_entry_history_clamps (reg : Reg) (scanTime : R) (h : IMUState)
    (idx : Z) (cur : IMUState) (point : PointXYZI) (relTime : fval) :
  _imuHistory reg = [h] ->
  cursor_ok (_imuHistory reg) idx = true ->
  compensate' reg scanTime idx cur point relTime
  = Some (0, h, transformToStartIMU (_imuStart reg) h point relTime).
Proof.
  intros Hh Hc. rewrite Hh in Hc.
  assert (Hi : idx = 0).
  { pose proof (cursor_ok_nonempty [h] idx Hc). simpl in H. lia. }
  subst idx. unfold compensate. rewrite Hh.
  change (0 <? Z.of_nat (length [h])) with true. cbv iota.
  reflexivity.
Qed.

(** *** A registration without rings (lines 102, 125-128, 177-184) *)

(** With [_nScans = 0] the range check rejects every point: the
    assembled cloud and both index arrays are empty. *)
Theorem no_rings_no_output (reg : Reg) (points : list PointXYZ)
    (scanTime : R) :
  well_formed reg points = true ->
  _nScans reg = 0 ->
  exists reg',
    process' reg points scanTime = Some reg' /\
    _laserCloud reg' = [] /\
    _scanStartIndices reg' = [] /\ _scanEndIndices reg' = [] /\
    filter (accepted (_nScans reg)) points = [].
Proof.
  intros Hwf HN.
  destruct (process_spec stamp interpolate transformToStartIMU ity reg points
              scanTime Hwf)
    as (st & reg' & _ & Hp & Hlen & Hcount & Hc & Hs & He & _).
  rewrite HN in Hlen. simpl in Hlen.
  apply length_zero_iff_nil in Hlen. rewrite Hlen in *.
  exists reg'. split; [exact Hp|].
  split; [exact Hc|]. split; [exact Hs|]. split; [exact He|].
  simpl in Hcount. symmetry in Hcount.
  now apply length_zero_iff_nil in Hcount.
Qed.

End LoopProperties.

(** ** What the sweep orientation reads (lines 90-92) *)

(** The orientation of the sweep depends on the [x] and [y] coordinates
    of the first and of the last raw point only: neither their [z], nor
    any other point, nor the validity of the two end points matters. *)
Theorem orientation_reads_endpoints_only (points points' : list PointXYZ)
    (first last first' last' : PointXYZ) :
  Z.of_nat (length points) < 2 ^ 64 ->
  Z.of_nat (length points') < 2 ^ 64 ->
  nth_error points 0 = Some first ->
  nth_error points (length points - 1) = Some last ->
  nth_error points' 0 = Some first' ->
  nth_error points' (length points' - 1) = Some last' ->
  in_x first = in_x first' -> in_y first = in_y first' ->
  in_x last = in_x last' -> in_y last = in_y last' ->
  sweep_orientation points = sweep_orientation points'.
Proof.
  intros Hfit Hfit' H0 Hl H0' Hl' Hx Hy Hxl Hyl.
  rewrite (sweep_orientation_defined points first last Hfit H0 Hl).
  rewrite (sweep_orientation_defined points' first' last' Hfit' H0' Hl').
  now rewrite Hx, Hy, Hxl, Hyl.
Qed.

Lemma orientation_reads_endpoints_only_witness :
  sweep_orientation [p_ahead; p_side; p_ahead]
  = sweep_orientation [p_high; p_high].
Proof.
  apply (orientation_reads_endpoints_only
           [p_ahead; p_side; p_ahead] [p_high; p_high]
           p_ahead p_ahead p_high p_high);
    reflexivity.
Defined.

(** ** Examples for the loop properties *)

Lemma cursor_search_stops_witness :
  0 <= advance_imuIdx sample_stamp [sample0; sample1] 0 (FFin (1 / 40)) 0
    < Z.of_nat (length [sample0; sample1]).
Proof.
  apply (cursor_search_stops sample_stamp [sample0; sample1] 0
           (FFin (1 / 40)) 0).
  - simpl. lia.
  - simpl. lia.
Defined.

Lemma advanced_cursor_brackets_witness :
  0 < advance_imuIdx sample_stamp [sample0; sample1] 0 (FFin (1 / 40)) 0 /\
  ((exists cur,
      select_imu32 FFin sample_stamp [sample0; sample1] 0 (FFin (1 / 40))
        (advance_imuIdx sample_stamp [sample0; sample1] 0 (FFin (1 / 40)) 0)
      = Some (Direct cur)) \/
   (exists cur prev q,
      select_imu32 FFin sample_stamp [sample0; sample1] 0 (FFin (1 / 40))
        (advance_imuIdx sample_stamp [sample0; sample1] 0 (FFin (1 / 40)) 0)
      = Some (Interpolated cur prev (FFin q)) /\
      (0 <= q < 1)%R)).
Proof.
  assert (H : 0 < advance_imuIdx sample_stamp [sample0; sample1] 0
                    (FFin (1 / 40)) 0)
    by (rewrite advance_after_side; lia).
  split; [exact H|].
  destruct (advanced_cursor_brackets sample_stamp FFin [sample0; sample1] 0
              (FFin (1 / 40)) 0)
    as [(cur & Hs & _) | (cur & prev & rt & q & _ & Hs & _ & _ & _ & _ & Hr)];
    [simpl; lia | simpl; lia | exact H | |].
  - left. exists cur. exact Hs.
  - right. exists cur, prev, q. split; [exact Hs | exact Hr].
Defined.

Lemma stale_cursor_extrapolates_witness :
  exists q : R,
    select_imu32 FFin sample_stamp [sample0; sample1] 0 (FFin (- (1 / 40))) 1
      = Some (Interpolated sample1 sample0 (FFin q)) /\
    (1 <= q)%R.
Proof.
  destruct (stale_cursor_extrapolates sample_stamp FFin [sample0; sample1] 0
              (- (1 / 40)) 1 sample1 sample0)
    as (_ & ratio & Hs & _ & Hr);
    [simpl; lia | lia | reflexivity | reflexivity | simpl; lra | simpl; lra |].
  exists ratio. split; [exact Hs | exact Hr].
Defined.

Lemma single_entry_history_clamps_witness :
  compensate sample_stamp sample_interpolate sample_transform
    (mkReg (FFin (1 / 10)) 16 [sample1] 0 sample0 sample0 [] [] [] 0)
    0 0 sample0 (remap p_ahead) (FFin 5)
  = Some (0, sample1, sample_transform sample0 sample1 (remap p_ahead) (FFin 5)).
Proof.
  apply (single_entry_history_clamps sample_stamp sample_interpolate
           sample_transform
           (mkReg (FFin (1 / 10)) 16 [sample1] 0 sample0 sample0 [] [] [] 0)
           0 sample1 0 sample0 (remap p_ahead) (FFin 5));
    reflexivity.
Defined.

Lemma loop_never_goes_back_witness :
  exists st,
    points_loop sample_stamp sample_interpolate sample_transform
      (reset reg16_imu) 0 (FFin 0) (FFin (2 * PI))
      (initial_loop (reset reg16_imu)) [p_ahead; p_side] = Some st /\
    imuIdx (initial_loop (reset reg16_imu)) <= imuIdx st /\
    length (laserCloudScans st)
    = length (laserCloudScans (initial_loop (reset reg16_imu))).
Proof.
  destruct loop_ahead_side as (st & Hloop & _).
  exists st. split; [exact Hloop|].
  destruct (loop_never_goes_back sample_stamp sample_interpolate
              sample_transform (reset reg16_imu) 0 (FFin 0) (FFin (2 * PI))
              [p_ahead; p_side] (initial_loop (reset reg16_imu)) st)
    as (_ & Hidx & _ & Hlen & _);
    [simpl; lia | reflexivity | exact Hloop |].
  split; [exact Hidx | exact Hlen].
Defined.

Lemma rings_partition_classified_points_witness :
  well_formed reg16 [p_ahead; p_high; p_side] = true /\
  exists s e reg',
    sweep_orientation [p_ahead; p_high; p_side] = Some (s, e) /\
    process sample_stamp sample_interpolate sample_transform IndexInt
      reg16 [p_ahead; p_high; p_side] 0 = Some reg' /\
    _laserCloud reg' =
      concat (map (fun i =>
                     ring_points i
                       (classified_trace reg16 s e false
                          [p_ahead; p_high; p_side]))
                  (seq 0 (Z.to_nat (_nScans reg16)))).
Proof.
  split; [reflexivity|].
  destruct (rings_partition_classified_points sample_stamp sample_interpolate
              sample_transform IndexInt reg16 [p_ahead; p_high; p_side] 0
              eq_refl eq_refl)
    as (s & e & st & reg' & Ho & _ & Hp & _ & Hc).
  exists s, e, reg'. split; [exact Ho|]. split; [exact Hp | exact Hc].
Defined.

Lemma compensation_keeps_classified_scalar_witness :
  well_formed reg16_imu [p_ahead; p_high; p_ahead] = true /\
  exists s e st reg',
    sweep_orientation [p_ahead; p_high; p_ahead] = Some (s, e) /\
    classify_sweep sample_stamp sample_interpolate sample_transform
      reg16_imu [p_ahead; p_high; p_ahead] 0 = Some st /\
    process sample_stamp sample_interpolate sample_transform IndexInt
      reg16_imu [p_ahead; p_high; p_ahead] 0 = Some reg' /\
    Forall2 (compensated_from sample_transform)
      (ring_points 15
         (classified_trace reg16_imu s e false [p_ahead; p_high; p_ahead]))
      (nth 15 (laserCloudScans st) []) /\
    map intensity (nth 15 (laserCloudScans st) [])
    = map intensity
        (ring_points 15
           (classified_trace reg16_imu s e false [p_ahead; p_high; p_ahead])).
Proof.
  split; [reflexivity|].
  pose proof (compensation_keeps_classified_scalar sample_stamp
                sample_interpolate sample_transform IndexInt reg16_imu
                [p_ahead; p_high; p_ahead] 0 eq_refl) as H.
  cbv zeta in H.
  destruct H as (s & e & st & reg' & Ho & Hst & Hp & _ & _ & _ & HF & Hint).
  exists s, e, st, reg'.
  split; [exact Ho|]. split; [exact Hst|]. split; [exact Hp|].
  split.
  - apply HF. apply Nat.ltb_lt. reflexivity.
  - apply Hint.
    + intros imuStart imuCur point relTime. reflexivity.
    + apply Nat.ltb_lt. reflexivity.
Defined.

Lemma nan_first_point_poisons_times_witness :
  well_formed reg16_imu [mkXYZ FNaN (FFin 0) (FFin 0); p_ahead; p_side] = true /\
  exists reg',
    process sample_stamp sample_interpolate sample_transform IndexInt
      reg16_imu [mkXYZ FNaN (FFin 0) (FFin 0); p_ahead; p_side] 0 = Some reg' /\
    Forall (fun q => intensity q = FNaN) (_laserCloud reg').
Proof.
  split; [reflexivity|].
  destruct (nan_first_point_poisons_times sample_stamp sample_interpolate
              sample_transform IndexInt reg16_imu
              [mkXYZ FNaN (FFin 0) (FFin 0); p_ahead; p_side] 0
              (mkXYZ FNaN (FFin 0) (FFin 0)))
    as (e & st & reg' & _ & _ & Hp & _ & _ & HF).
  - intros imuStart imuCur point relTime. reflexivity.
  - reflexivity.
  - reflexivity.
  - left. reflexivity.
  - exists reg'. split; [exact Hp | exact HF].
Defined.

Lemma handler_processes_after_delay_witness :
  _systemDelay reg16 <= 0 /\
  exists k,
    fst (handle_messages sample_stamp sample_interpolate sample_transform
           IndexInt reg16 [([p_ahead; p_side], 0%R); ([p_ahead], 1%R)])
    = map (fun m => Processed (fst m) (snd m))
          (firstn k [([p_ahead; p_side], 0%R); ([p_ahead], 1%R)]).
Proof.
  assert (H : _systemDelay reg16 <= 0) by (simpl; lia).
  split; [exact H|].
  exact (proj1 (handler_processes_after_delay sample_stamp sample_interpolate
                  sample_transform IndexInt reg16
                  [([p_ahead; p_side], 0%R); ([p_ahead], 1%R)] H)).
Defined.

Lemma no_rings_no_output_witness :
  exists reg',
    process sample_stamp sample_interpolate sample_transform IndexInt
      (mkReg (FFin (1 / 10)) 0 [] 0 sample0 sample0 [] [] [] 0)
      [p_ahead; p_side] 0 = Some reg' /\
    _laserCloud reg' = [].
Proof.
  destruct (no_rings_no_output sample_stamp sample_interpolate
              sample_transform IndexInt
              (mkReg (FFin (1 / 10)) 0 [] 0 sample0 sample0 [] [] [] 0)
              [p_ahead; p_side] 0 eq_refl eq_refl)
    as (reg' & Hp & Hc & _).
  exists reg'. split; [exact Hp | exact Hc].
Defined.
